(** * RFTFluency3D: the trial sequencer, scoring and difficulty logic

    A shallow embedding of the decision-making part of
    [src/components/RFTFluency3D.tsx]: the stimulus generator, the
    perspective transformer, the turn loop ([nextTurn], [handleInput]), the
    adaptive difficulty controller ([checkProgression], [endGame]) and the
    history recorder ([saveHistory]).

    Conventions of the model.
    - String-literal union types are inductive types; where the JavaScript
      code uses the value as a string (object keys, [sort], [join], the
      [any]-typed result of [getTransformedValue]) the [*_str] functions give
      the literal.
    - JavaScript numbers that hold integers (counters, score, milliseconds)
      are in [Z]; the accuracy percentage and the results of [Math.random]
      are exact rationals in [Q].
    - A React component function closes over the state values of the render
      it was created in, while [useRef] cells and functional state updates
      ([setScore (s => s - 5)]) act on the live values.  Every handler
      therefore takes the render snapshot [r : State] it closes over and
      transforms a [World] holding the live state, the refs and the local
      storage.
    - Rendering (three.js meshes, chart data, [levelUpMsg] banners) is left
      out: no decision of the sequencer reads it back. *)

From Stdlib Require Import ZArith QArith Qround String List Lia.
From stdpp Require Import base option list gmap strings pretty.
Import ListNotations.

Local Open Scope string_scope.
Local Open Scope Z_scope.

(** ** Types *)

Module Attribute.
Inductive t := color | shape | size | position.
#[global] Instance eq_dec : EqDecision t.
Proof. solve_decision. Defined.
End Attribute.

Inductive ShapeType := cube | sphere | tetrahedron.
Inductive ColorType := red | blue | green.
Inductive SizeType := small | medium | large.

Module PositionType.
Inductive t := left | center | right.
#[global] Instance eq_dec : EqDecision t.
Proof. solve_decision. Defined.
End PositionType.

Inductive PerspectiveType := symbolic | spatial.
Inductive SpatialRepType := rotation | folding | cutout | instant.
Inductive ObserverPos := me | opposite.
Inductive SpatialMatchMode := view | object.
Inductive UserAction := a_match | non_match.

Module PhysicalSide.
Inductive t := left | right.
End PhysicalSide.

#[global] Instance ShapeType_eq_dec : EqDecision ShapeType.
Proof. solve_decision. Defined.
#[global] Instance ColorType_eq_dec : EqDecision ColorType.
Proof. solve_decision. Defined.
#[global] Instance SizeType_eq_dec : EqDecision SizeType.
Proof. solve_decision. Defined.
#[global] Instance PerspectiveType_eq_dec : EqDecision PerspectiveType.
Proof. solve_decision. Defined.
#[global] Instance SpatialRepType_eq_dec : EqDecision SpatialRepType.
Proof. solve_decision. Defined.
#[global] Instance ObserverPos_eq_dec : EqDecision ObserverPos.
Proof. solve_decision. Defined.
#[global] Instance SpatialMatchMode_eq_dec : EqDecision SpatialMatchMode.
Proof. solve_decision. Defined.

(** The string literal behind each value. *)
Definition Attribute_str (a : Attribute.t) : string :=
  match a with
  | Attribute.color => "color" | Attribute.shape => "shape"
  | Attribute.size => "size" | Attribute.position => "position"
  end.
Definition ShapeType_str (s : ShapeType) : string :=
  match s with cube => "cube" | sphere => "sphere" | tetrahedron => "tetrahedron" end.
Definition ColorType_str (c : ColorType) : string :=
  match c with red => "red" | blue => "blue" | green => "green" end.
Definition SizeType_str (s : SizeType) : string :=
  match s with small => "small" | medium => "medium" | large => "large" end.
Definition PositionType_str (p : PositionType.t) : string :=
  match p with
  | PositionType.left => "left" | PositionType.center => "center"
  | PositionType.right => "right"
  end.

Module Stimulus.
Record t := mk {
  color : ColorType;
  backColor : ColorType;
  netColors : list ColorType;
  shape : ShapeType;
  size : SizeType;
  position : PositionType.t;
  id : Z;
  stroopText : string;
  stroopInk : ColorType;
  observerPos : ObserverPos
}.

(** [stim[rule]] for [rule : Attribute]. *)
Definition get (stim : t) (rule : Attribute.t) : string :=
  match rule with
  | Attribute.color => ColorType_str (color stim)
  | Attribute.shape => ShapeType_str (shape stim)
  | Attribute.size => SizeType_str (size stim)
  | Attribute.position => PositionType_str (position stim)
  end.
End Stimulus.

Module GameHistory.
(** [GameHistory & { timestamp: number }], the record [saveHistory] writes. *)
Record t := mk {
  date : string;
  timestamp : Z;
  score : Z;
  accuracy : Q;
  maxNBack : Z
}.
End GameHistory.

(** ** Constants *)

Definition ALL_ATTRIBUTES : list Attribute.t :=
  [Attribute.color; Attribute.shape; Attribute.size; Attribute.position].
Definition COLORS : list ColorType := [red; blue; green].
Definition SHAPES : list ShapeType := [cube; sphere; tetrahedron].
Definition SIZES : list SizeType := [small; medium; large].
Definition POSITIONS : list PositionType.t :=
  [PositionType.left; PositionType.center; PositionType.right].
Definition STROOP_WORDS : list string := ["RED"; "BLUE"; "GREEN"].
Definition INTERVAL_MS : Z := 3500.
Definition BLOCK_SIZE : Z := 20.

(** ** Component state

    [State] holds the [useState] values that the logic reads or writes. *)

Record State := mkState {
  activeRules : list Attribute.t;
  perspectiveMode : bool;
  perspectiveType : PerspectiveType;
  spatialType : SpatialRepType;
  spatialMatchMode : SpatialMatchMode;
  distractorsEnabled : bool;
  controlSwapEnabled : bool;
  useTimer : bool;
  gameDurationSeconds : Z;
  isPlaying : bool;
  score : Z;
  timeLeftSeconds : Z;
  nBack : Z;
  autoProgress : bool;
  currentRule : Attribute.t;
  currentStimulus : option Stimulus.t;
  isSwapped : bool;
  feedbackMsg : string;
  feedbackColor : string
}.

(** The [useRef] cells.  A timer handle is kept as the delay of the pending
    callback ([None] when the ref is [undefined] or was cleared). *)
Record Refs := mkRefs {
  historyRef : list Stimulus.t;
  scoreRef : Z;
  turnTimerRef : option Z;
  gameIntervalRef : option Z;
  blockTurnCount : Z;
  blockMistakes : Z;
  totalMistakes : Z;
  totalTurns : Z;
  hasResponded : bool;
  perspectiveMapping : gmap string (gmap string string);
  lastStroopText : string
}.

(** The two [localStorage] keys the logic writes; [None] is an absent key
    ([getItem] returns [null]). *)
Record LocalStorage := mkStorage {
  rft_fluency_3d_history : option (list GameHistory.t);
  rft_fluency_3d_rules : option (list Attribute.t)
}.

Record World := mkWorld {
  live : State;
  refs : Refs;
  storage : LocalStorage
}.

(** *** State setters

    [setX v] and [setX (x => f x)] of React act on the live state. *)

Definition on_live (f : State → State) (w : World) : World :=
  mkWorld (f (live w)) (refs w) (storage w).
Definition on_refs (f : Refs → Refs) (w : World) : World :=
  mkWorld (live w) (f (refs w)) (storage w).
Definition on_storage (f : LocalStorage → LocalStorage) (w : World) : World :=
  mkWorld (live w) (refs w) (f (storage w)).

Definition setActiveRules (v : list Attribute.t) : World → World :=
  on_live (λ s, mkState v (perspectiveMode s) (perspectiveType s)
    (spatialType s) (spatialMatchMode s) (distractorsEnabled s)
    (controlSwapEnabled s) (useTimer s) (gameDurationSeconds s) (isPlaying s)
    (score s) (timeLeftSeconds s) (nBack s) (autoProgress s) (currentRule s)
    (currentStimulus s) (isSwapped s) (feedbackMsg s) (feedbackColor s)).
Definition setIsPlaying (v : bool) : World → World :=
  on_live (λ s, mkState (activeRules s) (perspectiveMode s) (perspectiveType s)
    (spatialType s) (spatialMatchMode s) (distractorsEnabled s)
    (controlSwapEnabled s) (useTimer s) (gameDurationSeconds s) v
    (score s) (timeLeftSeconds s) (nBack s) (autoProgress s) (currentRule s)
    (currentStimulus s) (isSwapped s) (feedbackMsg s) (feedbackColor s)).
Definition setScore (f : Z → Z) : World → World :=
  on_live (λ s, mkState (activeRules s) (perspectiveMode s) (perspectiveType s)
    (spatialType s) (spatialMatchMode s) (distractorsEnabled s)
    (controlSwapEnabled s) (useTimer s) (gameDurationSeconds s) (isPlaying s)
    (f (score s)) (timeLeftSeconds s) (nBack s) (autoProgress s) (currentRule s)
    (currentStimulus s) (isSwapped s) (feedbackMsg s) (feedbackColor s)).
Definition setTimeLeftSeconds (f : Z → Z) : World → World :=
  on_live (λ s, mkState (activeRules s) (perspectiveMode s) (perspectiveType s)
    (spatialType s) (spatialMatchMode s) (distractorsEnabled s)
    (controlSwapEnabled s) (useTimer s) (gameDurationSeconds s) (isPlaying s)
    (score s) (f (timeLeftSeconds s)) (nBack s) (autoProgress s) (currentRule s)
    (currentStimulus s) (isSwapped s) (feedbackMsg s) (feedbackColor s)).
Definition setNBack (f : Z → Z) : World → World :=
  on_live (λ s, mkState (activeRules s) (perspectiveMode s) (perspectiveType s)
    (spatialType s) (spatialMatchMode s) (distractorsEnabled s)
    (controlSwapEnabled s) (useTimer s) (gameDurationSeconds s) (isPlaying s)
    (score s) (timeLeftSeconds s) (f (nBack s)) (autoProgress s) (currentRule s)
    (currentStimulus s) (isSwapped s) (feedbackMsg s) (feedbackColor s)).
Definition setCurrentRule (v : Attribute.t) : World → World :=
  on_live (λ s, mkState (activeRules s) (perspectiveMode s) (perspectiveType s)
    (spatialType s) (spatialMatchMode s) (distractorsEnabled s)
    (controlSwapEnabled s) (useTimer s) (gameDurationSeconds s) (isPlaying s)
    (score s) (timeLeftSeconds s) (nBack s) (autoProgress s) v
    (currentStimulus s) (isSwapped s) (feedbackMsg s) (feedbackColor s)).
Definition setCurrentStimulus (v : option Stimulus.t) : World → World :=
  on_live (λ s, mkState (activeRules s) (perspectiveMode s) (perspectiveType s)
    (spatialType s) (spatialMatchMode s) (distractorsEnabled s)
    (controlSwapEnabled s) (useTimer s) (gameDurationSeconds s) (isPlaying s)
    (score s) (timeLeftSeconds s) (nBack s) (autoProgress s) (currentRule s)
    v (isSwapped s) (feedbackMsg s) (feedbackColor s)).
Definition setIsSwapped (v : bool) : World → World :=
  on_live (λ s, mkState (activeRules s) (perspectiveMode s) (perspectiveType s)
    (spatialType s) (spatialMatchMode s) (distractorsEnabled s)
    (controlSwapEnabled s) (useTimer s) (gameDurationSeconds s) (isPlaying s)
    (score s) (timeLeftSeconds s) (nBack s) (autoProgress s) (currentRule s)
    (currentStimulus s) v (feedbackMsg s) (feedbackColor s)).
Definition setFeedbackMsg (v : string) : World → World :=
  on_live (λ s, mkState (activeRules s) (perspectiveMode s) (perspectiveType s)
    (spatialType s) (spatialMatchMode s) (distractorsEnabled s)
    (controlSwapEnabled s) (useTimer s) (gameDurationSeconds s) (isPlaying s)
    (score s) (timeLeftSeconds s) (nBack s) (autoProgress s) (currentRule s)
    (currentStimulus s) (isSwapped s) v (feedbackColor s)).
Definition setFeedbackColor (v : string) : World → World :=
  on_live (λ s, mkState (activeRules s) (perspectiveMode s) (perspectiveType s)
    (spatialType s) (spatialMatchMode s) (distractorsEnabled s)
    (controlSwapEnabled s) (useTimer s) (gameDurationSeconds s) (isPlaying s)
    (score s) (timeLeftSeconds s) (nBack s) (autoProgress s) (currentRule s)
    (currentStimulus s) (isSwapped s) (feedbackMsg s) v).

(** Assignments to [x.current]. *)
Definition set_historyRef (v : list Stimulus.t) : World → World :=
  on_refs (λ x, mkRefs v (scoreRef x) (turnTimerRef x) (gameIntervalRef x)
    (blockTurnCount x) (blockMistakes x) (totalMistakes x) (totalTurns x)
    (hasResponded x) (perspectiveMapping x) (lastStroopText x)).
Definition set_scoreRef (v : Z) : World → World :=
  on_refs (λ x, mkRefs (historyRef x) v (turnTimerRef x) (gameIntervalRef x)
    (blockTurnCount x) (blockMistakes x) (totalMistakes x) (totalTurns x)
    (hasResponded x) (perspectiveMapping x) (lastStroopText x)).
Definition set_turnTimerRef (v : option Z) : World → World :=
  on_refs (λ x, mkRefs (historyRef x) (scoreRef x) v (gameIntervalRef x)
    (blockTurnCount x) (blockMistakes x) (totalMistakes x) (totalTurns x)
    (hasResponded x) (perspectiveMapping x) (lastStroopText x)).
Definition set_gameIntervalRef (v : option Z) : World → World :=
  on_refs (λ x, mkRefs (historyRef x) (scoreRef x) (turnTimerRef x) v
    (blockTurnCount x) (blockMistakes x) (totalMistakes x) (totalTurns x)
    (hasResponded x) (perspectiveMapping x) (lastStroopText x)).
Definition set_blockTurnCount (v : Z) : World → World :=
  on_refs (λ x, mkRefs (historyRef x) (scoreRef x) (turnTimerRef x)
    (gameIntervalRef x) v (blockMistakes x) (totalMistakes x) (totalTurns x)
    (hasResponded x) (perspectiveMapping x) (lastStroopText x)).
Definition set_blockMistakes (v : Z) : World → World :=
  on_refs (λ x, mkRefs (historyRef x) (scoreRef x) (turnTimerRef x)
    (gameIntervalRef x) (blockTurnCount x) v (totalMistakes x) (totalTurns x)
    (hasResponded x) (perspectiveMapping x) (lastStroopText x)).
Definition set_totalMistakes (v : Z) : World → World :=
  on_refs (λ x, mkRefs (historyRef x) (scoreRef x) (turnTimerRef x)
    (gameIntervalRef x) (blockTurnCount x) (blockMistakes x) v (totalTurns x)
    (hasResponded x) (perspectiveMapping x) (lastStroopText x)).
Definition set_totalTurns (v : Z) : World → World :=
  on_refs (λ x, mkRefs (historyRef x) (scoreRef x) (turnTimerRef x)
    (gameIntervalRef x) (blockTurnCount x) (blockMistakes x) (totalMistakes x) v
    (hasResponded x) (perspectiveMapping x) (lastStroopText x)).
Definition set_hasResponded (v : bool) : World → World :=
  on_refs (λ x, mkRefs (historyRef x) (scoreRef x) (turnTimerRef x)
    (gameIntervalRef x) (blockTurnCount x) (blockMistakes x) (totalMistakes x)
    (totalTurns x) v (perspectiveMapping x) (lastStroopText x)).
Definition set_perspectiveMapping (v : gmap string (gmap string string)) :
    World → World :=
  on_refs (λ x, mkRefs (historyRef x) (scoreRef x) (turnTimerRef x)
    (gameIntervalRef x) (blockTurnCount x) (blockMistakes x) (totalMistakes x)
    (totalTurns x) (hasResponded x) v (lastStroopText x)).
Definition set_lastStroopText (v : string) : World → World :=
  on_refs (λ x, mkRefs (historyRef x) (scoreRef x) (turnTimerRef x)
    (gameIntervalRef x) (blockTurnCount x) (blockMistakes x) (totalMistakes x)
    (totalTurns x) (hasResponded x) (perspectiveMapping x) v).

Definition set_rft_fluency_3d_history (v : list GameHistory.t) : World → World :=
  on_storage (λ x, mkStorage (Some v) (rft_fluency_3d_rules x)).
Definition set_rft_fluency_3d_rules (v : list Attribute.t) : World → World :=
  on_storage (λ x, mkStorage (rft_fluency_3d_history x) (Some v)).

(** ** Perspective transformer *)

(** [xs.sort()] on strings: the default comparison orders by code units.
    The sort is stable, so insertion before the first strictly greater
    element gives the result. *)
Fixpoint sort_insert (x : string) (xs : list string) : list string :=
  match xs with
  | [] => [x]
  | y :: ys => if String.ltb x y then x :: y :: ys else y :: sort_insert x ys
  end.
Definition Array_sort (xs : list string) : list string :=
  fold_left (λ acc x, sort_insert x acc) xs [].

(** The result is [any] in the source: a string, or [undefined] ([None])
    when a relabeling table has no entry for the raw value. *)
Definition getTransformedValue (r : State)
    (perspectiveMapping_current : gmap string (gmap string string))
    (stim : Stimulus.t) (rule : Attribute.t) : option string :=
  if negb (perspectiveMode r) then Some (Stimulus.get stim rule) else
  match perspectiveType r with
  | symbolic =>
      if decide (Stimulus.observerPos stim = me) then Some (Stimulus.get stim rule)
      else
        let rawValue := Stimulus.get stim rule in
        match perspectiveMapping_current !! Attribute_str rule with
        | Some map => map !! rawValue
        | None => Some rawValue
        end
  | spatial =>
      if decide (rule = Attribute.position) then
        if decide (spatialMatchMode r = object)
        then Some (PositionType_str (Stimulus.position stim))
        else if decide (Stimulus.observerPos stim = me)
        then Some (PositionType_str (Stimulus.position stim))
        else if decide (Stimulus.position stim = PositionType.left) then Some "right"
        else if decide (Stimulus.position stim = PositionType.right) then Some "left"
        else Some "center"
      else if decide (rule = Attribute.color) then
        if decide (spatialMatchMode r = object) then
          let c := Array_sort [ColorType_str (Stimulus.color stim);
                               ColorType_str (Stimulus.backColor stim)] in
          Some (String.concat "-" c)
        else
          Some (ColorType_str
                  (if decide (Stimulus.observerPos stim = me)
                   then Stimulus.color stim else Stimulus.backColor stim))
      else Some (Stimulus.get stim rule)
  end.

(** ** Randomness

    [Math.random()] is an oracle: the list of the numbers the successive
    calls return.  A computation that asks for more numbers than the list
    holds, or finds a number outside [0, 1), has no result. *)

Definition Rand (A : Type) : Type := list Q → option (A * list Q).

#[global] Instance Rand_ret : MRet Rand := λ A a ds, Some (a, ds).
#[global] Instance Rand_bind : MBind Rand := λ A B f m ds,
  match m ds with
  | Some (a, ds') => f a ds'
  | None => None
  end.

Definition Qltb (x y : Q) : bool := negb (Qle_bool y x).
Definition in_unit (u : Q) : bool := Qle_bool 0 u && Qltb u 1.

Definition Math_random : Rand Q := λ ds,
  match ds with
  | u :: ds' => if in_unit u then Some (u, ds') else None
  | [] => None
  end.

(** An array read [xs[i]] whose result is used at the element type: an
    index out of range (JavaScript's [undefined]) has no result. *)
Definition Rand_index {A} (xs : list A) (i : nat) : Rand A := λ ds,
  match xs !! i with
  | Some x => Some (x, ds)
  | None => None
  end.

(** [Math.floor(u * n)], computed exactly.  The double product can round up
    to the next integer for a few boundary values of [u] (the double just
    below 1/3 with [n = 3]), which gives the neighbouring index; for the
    lengths 1 to 4 that occur the index stays below [n] either way. *)
Definition Math_floor_mul (u : Q) (n : nat) : nat :=
  Z.to_nat (Qfloor (u * inject_Z (Z.of_nat n))).

(** [xs[Math.floor(Math.random() * xs.length)]] *)
Definition random_element {A} (xs : list A) : Rand A :=
  u ← Math_random; Rand_index xs (Math_floor_mul u (length xs)).

(** [ds] holds at least [n] numbers, all in [0, 1). *)
Definition enough (n : nat) (ds : list Q) : Prop :=
  Forall (λ u, in_unit u = true) ds ∧ (n ≤ length ds)%nat.

(** ** Symbolic relabeling tables *)

(** The [for] loop of [generateCyclicMapping] that looks for an index with
    [values[i] === shuffled[i]]. *)
Fixpoint has_fixed_point (values shuffled : list string) : bool :=
  match values, shuffled with
  | v :: values', s :: shuffled' =>
      if decide (v = s) then true else has_fixed_point values' shuffled'
  | _, _ => false
  end.

(** [[...values].sort(() => Math.random() - 0.5)]: the comparator is not
    consistent, so the order the engine leaves the array in is its own
    business.  The oracle [shuffles] lists what the successive calls of this
    sort do to their argument; the [while] loop takes one per iteration. *)
Fixpoint shuffle_until_valid (values : list string)
    (shuffles : list (list string → list string))
    : option (list string * list (list string → list string)) :=
  match shuffles with
  | [] => None
  | sort_random :: shuffles' =>
      let shuffled := sort_random values in
      if has_fixed_point values shuffled
      then shuffle_until_valid values shuffles'
      else Some (shuffled, shuffles')
  end.

Definition generateCyclicMapping (values : list string)
    (shuffles : list (list string → list string))
    : option (gmap string string * list (list string → list string)) :=
  match shuffle_until_valid values shuffles with
  | Some (shuffled, shuffles') =>
      Some (fold_left (λ map kv, <[kv.1 := kv.2]> map) (zip values shuffled) ∅,
            shuffles')
  | None => None
  end.

Definition scramblePerspectiveRules
    (shuffles : list (list string → list string)) (w : World)
    : option (World * list (list string → list string)) :=
  '(mcolor, sh1) ← generateCyclicMapping (ColorType_str <$> COLORS) shuffles;
  '(mshape, sh2) ← generateCyclicMapping (ShapeType_str <$> SHAPES) sh1;
  '(msize, sh3) ← generateCyclicMapping (SizeType_str <$> SIZES) sh2;
  '(mposition, sh4) ← generateCyclicMapping (PositionType_str <$> POSITIONS) sh3;
  Some (set_perspectiveMapping
          (<["position" := mposition]> (<["size" := msize]>
            (<["shape" := mshape]> (<["color" := mcolor]> ∅)))) w,
        sh4).

(** ** Stimulus generator *)

(** [while (backColor === color) backColor = COLORS[...]] *)
Fixpoint resample_backColor (color backColor : ColorType) (ds : list Q)
    : option (ColorType * list Q) :=
  if decide (backColor = color) then
    match ds with
    | [] => None
    | u :: ds' =>
        if in_unit u then
          match COLORS !! Math_floor_mul u (length COLORS) with
          | Some backColor' => resample_backColor color backColor' ds'
          | None => None
          end
        else None
    end
  else Some (backColor, ds).

(** [Array(n).fill("").map(() => COLORS[...])] *)
Fixpoint random_colors (n : nat) : Rand (list ColorType) :=
  match n with
  | O => mret []
  | S n' => c ← random_element COLORS; cs ← random_colors n'; mret (c :: cs)
  end.

Definition includes (rule : Attribute.t) (rules : list Attribute.t) : bool :=
  bool_decide (rule ∈ rules).

Definition is_spatial (r : State) : bool :=
  perspectiveMode r && bool_decide (perspectiveType r = spatial).

Definition generateStimulus (r : State) (now : Z) (w : World)
    : Rand (Stimulus.t * World) :=
  color ← random_element COLORS;
  backColor0 ← random_element COLORS;
  backColor ← resample_backColor color backColor0;
  netColors0 ← random_colors 6;
  let netColors := <[5%nat := backColor]> (<[2%nat := color]> netColors0) in
  let varyShape := includes Attribute.shape (activeRules r) || distractorsEnabled r in
  shape0 ← (if varyShape then random_element SHAPES else mret cube);
  shape ← (if is_spatial r && negb (bool_decide (spatialType r = cutout))
           then mret cube
           else if is_spatial r && bool_decide (spatialType r = cutout)
           then u ← Math_random; mret (if Qltb (1 # 2) u then cube else sphere)
           else mret shape0);
  let varySize := includes Attribute.size (activeRules r) || distractorsEnabled r in
  size ← (if varySize then random_element SIZES else mret medium);
  let varyPos := includes Attribute.position (activeRules r) || distractorsEnabled r in
  position ← (if varyPos then random_element POSITIONS else mret PositionType.center);
  stroopText0 ← random_element STROOP_WORDS;
  stroopText ← (if decide (stroopText0 = lastStroopText (refs w))
                then random_element STROOP_WORDS else mret stroopText0);
  let w' := set_lastStroopText stroopText w in
  stroopInk ← random_element COLORS;
  u ← Math_random;
  mret (Stimulus.mk color backColor netColors shape size position now
          stroopText stroopInk (if Qltb (3 # 10) u then me else opposite),
        w').

(** ** Trial sequencer *)

(** The message is cleared again by a timer 800 ms later; that later event
    is not part of the call. *)
Definition flashFeedback (msg colorClass : string) (w : World) : World :=
  setFeedbackColor colorClass (setFeedbackMsg msg w).

(** [((turns - mistakes) / turns) * 100], computed exactly.  For counts
    below 2^40 the double result compares with 80 and with 50 as the exact
    one does. *)
Definition accuracy_of (turns mistakes : Z) : Q :=
  ((inject_Z (turns - mistakes) / inject_Z turns) * 100)%Q.

Definition checkProgression (r : State) (w : World) : World :=
  if negb (autoProgress r) || (blockTurnCount (refs w) <? BLOCK_SIZE) || useTimer r
  then w else
  let accuracy := accuracy_of (blockTurnCount (refs w)) (blockMistakes (refs w)) in
  let w1 :=
    if Qle_bool 80 accuracy then
      flashFeedback "LEVEL UP!" "text-accent" (setNBack (λ n, n + 1) w)
    else if Qltb accuracy 50 && (1 <? nBack r) then
      flashFeedback "Level Down" "text-red-500" (setNBack (λ n, n - 1) w)
    else w in
  set_blockMistakes 0 (set_blockTurnCount 0 w1).

Definition startTimer (w : World) : World :=
  match gameIntervalRef (refs w) with
  | Some _ => w
  | None => set_gameIntervalRef (Some 1000) w
  end.

(** The callback of the interval that [startTimer] installs. *)
Definition tick : World → World := setTimeLeftSeconds (λ prev, prev - 1).

(** The first statement of [nextTurn]: "Check missed target from previous
    turn". *)
Definition checkMissedTarget (isReset : bool) (r : State) (w : World) : World :=
  if negb isReset && (nBack r <? Z.of_nat (length (historyRef (refs w))))
     && negb (hasResponded (refs w))
  then
    let w := setScore (λ s, s - 5) w in
    let w := set_scoreRef (scoreRef (refs w) - 5) w in
    let w := set_totalMistakes (totalMistakes (refs w) + 1) w in
    let w := set_blockMistakes (blockMistakes (refs w) + 1) w in
    flashFeedback "Too Slow!" "text-red-500" w
  else w.

(** The literal [0.35]: the double nearest to 35/100, which lies just below
    it.  [Math.random() < 0.35] compares the drawn double with this one. *)
Definition double_0_35 : Q := 3152519739159347 # 9007199254740992.

Definition nextTurn (isReset : bool) (r : State) (now : Z) (w : World)
    : Rand World :=
  let w := checkMissedTarget isReset r w in
  let w := checkProgression r w in
  swapped ← (if controlSwapEnabled r
             then u ← Math_random; mret (Qltb u double_0_35)
             else mret false);
  let w := setIsSwapped swapped w in
  newRule ← random_element (activeRules r);
  let w := setCurrentRule newRule w in
  '(stim, w) ← generateStimulus r now w;
  let w := setCurrentStimulus (Some stim) w in
  let w := set_historyRef (historyRef (refs w) ++ [stim]) w in
  let w :=
    if useTimer r && negb (bool_decide (is_Some (gameIntervalRef (refs w))))
       && (nBack r <? Z.of_nat (length (historyRef (refs w))))
    then startTimer w else w in
  let w := set_totalTurns (totalTurns (refs w) + 1) w in
  let w := set_blockTurnCount (blockTurnCount (refs w) + 1) w in
  let w := set_hasResponded false w in
  mret (set_turnTimerRef (Some INTERVAL_MS) w).

Definition startGame (r : State) (now : Z)
    (shuffles : list (list string → list string)) (w : World)
    : Rand (World * list (list string → list string)) :=
  if decide (length (activeRules r) = 0%nat) then
    mret (flashFeedback "Select Rules!" "text-red-500" w, shuffles)
  else λ ds,
    match (if perspectiveMode r then scramblePerspectiveRules shuffles w
           else Some (w, shuffles)) with
    | None => None
    | Some (w, shuffles') =>
        let w := setIsPlaying true w in
        let w := setScore (λ _, 0) w in
        let w := set_scoreRef 0 w in
        let w := set_historyRef [] w in
        let w := setTimeLeftSeconds (λ _, gameDurationSeconds r) w in
        let w := set_totalMistakes 0 w in
        let w := set_blockMistakes 0 w in
        let w := set_totalTurns 0 w in
        let w := set_blockTurnCount 0 w in
        let w := set_hasResponded false w in
        let w := set_gameIntervalRef None w in
        (w' ← nextTurn true r now w; mret (w', shuffles')) ds
    end.

Definition stopGame (w : World) : World :=
  let w := setIsPlaying false w in
  let w := set_turnTimerRef None w in
  let w := set_gameIntervalRef None w in
  flashFeedback "Stopped" "text-accent" w.

(** [shortDate] is the formatted local time and [now] is [Date.now()]. *)
Definition saveHistory (shortDate : string) (now : Z)
    (accuracy : Q) (levelPlayed finalScore : Z) (w : World) : World :=
  let entry := GameHistory.mk shortDate now finalScore accuracy levelPlayed in
  let existing := default [] (rft_fluency_3d_history (storage w)) in
  set_rft_fluency_3d_history (existing ++ [entry]) w.

Definition endGame (timedOut : bool) (r : State) (shortDate : string) (now : Z)
    (w : World) : World :=
  if timedOut && negb (bool_decide (is_Some (gameIntervalRef (refs w)))) then w else
  let w := setIsPlaying false w in
  let w := set_turnTimerRef None w in
  let w := set_gameIntervalRef None w in
  let accuracy :=
    if 0 <? totalTurns (refs w)
    then accuracy_of (totalTurns (refs w)) (totalMistakes (refs w)) else 0%Q in
  let isSuccess := Qle_bool 80 accuracy in
  let levelPlayed := nBack r in
  let w :=
    if timedOut && autoProgress r && (0 <? totalTurns (refs w)) then
      if isSuccess then
        flashFeedback "LEVEL UP!" "text-green-500" (setNBack (λ n, n + 1) w)
      else if (1 <? nBack r) && Qltb accuracy 50 then
        flashFeedback "Level Down" "text-red-500" (setNBack (λ n, n - 1) w)
      else flashFeedback "Time Expired" "text-accent" w
    else w in
  if timedOut then saveHistory shortDate now accuracy levelPlayed (scoreRef (refs w)) w
  else w.

(** The effect on [timeLeftSeconds, isPlaying, useTimer]: the session
    timeout. *)
Definition timeoutEffect (r : State) (shortDate : string) (now : Z) (w : World)
    : World :=
  if isPlaying r && useTimer r && (timeLeftSeconds r <=? 0) then
    match gameIntervalRef (refs w) with
    | Some _ => endGame true r shortDate now w
    | None => w
    end
  else w.

(** [Math.max(0, Math.min(10, Math.floor((2000 - reactionTime) / 150)))]
    for a reaction time in whole milliseconds (a difference of two
    [Date.now()] values). *)
Definition speedBonus (reactionTime : Z) : Z :=
  Z.max 0 (Z.min 10 ((2000 - reactionTime) / 150)).

Definition is_correct (action : UserAction) (isMatch : bool) : bool :=
  match action with
  | a_match => isMatch
  | non_match => negb isMatch
  end.

(** [now] is [Date.now()] at the response.  Reading a property of
    [undefined] throws: when [historyRef] has no entry at one of the two
    indices the handler stops after setting [hasResponded]. *)
Definition handleInput (r : State) (now : Z) (action : UserAction) (w : World)
    : World :=
  let len := Z.of_nat (length (historyRef (refs w))) in
  if negb (isPlaying r) || (len <=? nBack r) || hasResponded (refs w) then w else
  let w := set_hasResponded true w in
  match historyRef (refs w) !! Z.to_nat (len - 1),
        (if 0 <=? len - 1 - nBack r
         then historyRef (refs w) !! Z.to_nat (len - 1 - nBack r) else None) with
  | Some currentStim, Some targetStim =>
      let val1 := getTransformedValue r (perspectiveMapping (refs w))
                    currentStim (currentRule r) in
      let val2 := getTransformedValue r (perspectiveMapping (refs w))
                    targetStim (currentRule r) in
      let isMatch := bool_decide (val1 = val2) in
      let w :=
        if is_correct action isMatch then
          let reactionTime := now - Stimulus.id currentStim in
          let points := 10 + nBack r * 5 + speedBonus reactionTime in
          let w := setScore (λ s, s + points) w in
          let w := set_scoreRef (scoreRef (refs w) + points) w in
          if 5 <? speedBonus reactionTime
          then flashFeedback ("FAST! +" +:+ pretty (speedBonus reactionTime))
                 "text-green-500" w
          else flashFeedback "Correct!" "text-green-500" w
        else
          let w := set_totalMistakes (totalMistakes (refs w) + 1) w in
          let w := set_blockMistakes (blockMistakes (refs w) + 1) w in
          let w := setScore (λ s, s - 5) w in
          let w := set_scoreRef (scoreRef (refs w) - 5) w in
          flashFeedback
            (match action with non_match => "Missed!" | a_match => "Incorrect!" end)
            "text-red-500" w in
      set_turnTimerRef (Some 500) w
  | _, _ => w
  end.

Definition handlePhysicalSide (r : State) (now : Z) (side : PhysicalSide.t)
    (w : World) : World :=
  if negb (isPlaying r) then w else
  let action :=
    if negb (isSwapped r)
    then match side with PhysicalSide.left => a_match | PhysicalSide.right => non_match end
    else match side with PhysicalSide.left => non_match | PhysicalSide.right => a_match end in
  handleInput r now action w.

(** The [keydown] listener; [code] is [e.code]. *)
Definition handleKeyDown (r : State) (now : Z) (code : string) (w : World)
    : World :=
  if negb (isPlaying r) then w else
  let w :=
    if bool_decide (code = "ArrowLeft") || bool_decide (code = "KeyD")
    then handlePhysicalSide r now PhysicalSide.left w else w in
  if bool_decide (code = "ArrowRight") || bool_decide (code = "KeyJ")
  then handlePhysicalSide r now PhysicalSide.right w else w.

(** The [-] and [+] buttons next to the level.  They are disabled while
    automatic progression is on in the render that drew them. *)
Definition nBackMinus (r : State) (w : World) : World :=
  if autoProgress r then w else setNBack (λ n, Z.max 1 (n - 1)) w.
Definition nBackPlus (r : State) (w : World) : World :=
  if autoProgress r then w else setNBack (λ n, n + 1) w.

(** ** Settings *)

Definition toggleRule (r : State) (rule : Attribute.t) (w : World) : World :=
  if is_spatial r
     && (bool_decide (rule = Attribute.shape) || bool_decide (rule = Attribute.size))
  then w else
  let newRules :=
    if includes rule (activeRules r)
    then filter (λ x, x ≠ rule) (activeRules r)
    else (activeRules r ++ [rule])%list in
  let newRules :=
    if decide (length newRules = 0%nat)
    then if decide (0 < length (activeRules r))%nat
         then activeRules r else [Attribute.color]
    else newRules in
  set_rft_fluency_3d_rules newRules (setActiveRules newRules w).

(** The part of [loadSettings] that reads the saved rules. *)
Definition loadSettings (w : World) : World :=
  match rft_fluency_3d_rules (storage w) with
  | Some parsed =>
      if decide (0 < length parsed)%nat then setActiveRules parsed w else w
  | None => w
  end.

(** ** Initial values and reachable settings *)

(** The arguments of the [useState] and [useRef] calls. *)
Definition initialState : State :=
  mkState [Attribute.color] false symbolic rotation view false false true 60
    false 0 60 1 true Attribute.color None false "" "".
Definition initialRefs : Refs :=
  mkRefs [] 0 None None 0 0 0 0 false ∅ "".
Definition initialWorld (st : LocalStorage) : World :=
  mkWorld initialState initialRefs st.

(** The worlds that mounting the component ([loadSettings]) and the rule
    check boxes ([toggleRule], called from the current render) lead to.
    These are the only writers of [activeRules]. *)
Inductive rules_reachable : World → Prop :=
| reach_initial st : rules_reachable (initialWorld st)
| reach_loadSettings w : rules_reachable w → rules_reachable (loadSettings w)
| reach_toggleRule w rule :
    rules_reachable w → rules_reachable (toggleRule (live w) rule w).

(** ** Properties of relabeling tables *)

(** [map] sends every value of [values] to a different value of [values],
    hits every value, and never sends two keys to the same value. *)
Definition derangement_on (values : list string) (map : gmap string string) : Prop :=
  (∀ v, v ∈ values → ∃ v', map !! v = Some v' ∧ v' ∈ values ∧ v' ≠ v) ∧
  (∀ v1 v2 v', map !! v1 = Some v' → map !! v2 = Some v' → v1 = v2) ∧
  (∀ v', v' ∈ values → ∃ v, v ∈ values ∧ map !! v = Some v') ∧
  (∀ v, is_Some (map !! v) → v ∈ values).

(** Each result of the random sort is a rearrangement of its argument. *)
Definition sorts_permute (shuffles : list (list string → list string)) : Prop :=
  Forall (λ sort_random, ∀ xs, sort_random xs ≡ₚ xs) shuffles.

(** ** Sample sessions

    Concrete renders, stimuli and worlds on which the theorems below are
    exercised. *)

Definition sample_stim (color backColor : ColorType) (position : PositionType.t)
    (id : Z) (observerPos : ObserverPos) : Stimulus.t :=
  Stimulus.mk color backColor [green; green; color; green; green; backColor]
    cube medium position id "RED" green observerPos.

(** A render of a running session. *)
Definition sample_render (perspectiveMode : bool) (perspectiveType : PerspectiveType)
    (spatialMatchMode : SpatialMatchMode) (useTimer autoProgress : bool)
    (timeLeftSeconds nBack : Z) (currentRule : Attribute.t) : State :=
  mkState [currentRule] perspectiveMode perspectiveType rotation spatialMatchMode
    false false useTimer 60 true 0 timeLeftSeconds nBack autoProgress currentRule
    None false "" "".

(** A world whose live state is the render [r]. *)
Definition sample_world (r : State) (history : list Stimulus.t)
    (gameInterval : option Z) (blockTurns blockMiss totalTurns' totalMiss : Z)
    (responded : bool) : World :=
  mkWorld r
    (mkRefs history (score r) (Some INTERVAL_MS) gameInterval blockTurns
       blockMiss totalMiss totalTurns' responded ∅ "RED")
    (mkStorage None None).

(** Plain 1-back play on colour, timer off, no automatic progression. *)
Definition plain_render : State :=
  sample_render false symbolic view false false 60 1 Attribute.color.

(** [plain_render] with control swap enabled. *)
Definition swap_render : State :=
  mkState [Attribute.color] false symbolic rotation view false true false 60
    true 0 60 1 false Attribute.color None false "" "".

(** Two red stimuli in a row, the second shown at time 1000 and not yet
    answered. *)
Definition two_reds : World :=
  sample_world plain_render
    [sample_stim red blue PositionType.center 0 me;
     sample_stim red green PositionType.center 1000 me]
    None 2 0 2 0 false.

(** Numbers for sixteen calls of [Math.random]. *)
Definition sample_draws : list Q :=
  [1 # 2; 1 # 2; 9 # 10; 1 # 3; 1 # 2; 3 # 4; 1 # 10; 2 # 3;
   1 # 5; 1 # 2; 4 # 5; 1 # 4; 1 # 2; 7 # 8; 1 # 2; 1 # 2]%Q.

(** A sort that moves the first element to the end, and one that leaves
    the array as it is. *)
Definition rotate_left (xs : list string) : list string :=
  (drop 1 xs ++ take 1 xs)%list.
Definition sample_shuffles : list (list string → list string) :=
  [λ xs, xs; rotate_left; rotate_left; λ xs, xs; rotate_left; rotate_left].

(** ** An unattended session

    [nextTurn] ends with [setTimeout(nextTurn, INTERVAL_MS)], where
    [nextTurn] names the callback itself.  The timer holds the function it
    was given: a re-render after a state update creates a new callback but
    does not replace the pending one.  So as long as no response (and no
    new start) re-arms the timer, every turn is run by the callback of the
    same render [r], whatever happens to the live state in between. *)

Fixpoint turns (n : nat) (r : State) (now : Z) (w : World) : Rand World :=
  match n with
  | O => mret w
  | S n' => w' ← nextTurn false r now w; turns n' r (now + INTERVAL_MS) w'
  end.

(** Start from the render [r] and let the turn timer fire [n] times. *)
Definition unattended (n : nat) (r : State) (w : World) : Rand World :=
  '(w0, _) ← startGame r 0 [] w; turns n r INTERVAL_MS w0.

(** Automatic progression on, timer off, level 2, colour as the only rule,
    perspective off. *)
Definition afk_render : State :=
  mkState [Attribute.color] false symbolic rotation view false false false 60
    false 0 60 2 true Attribute.color None false "" "".
Definition afk_world : World :=
  mkWorld afk_render initialRefs (mkStorage None None).
Definition afk_draws : list Q := concat (replicate 300 [0 # 1; 1 # 2]%Q).

(** Level, block turns and block mistakes after [n] timer firings. *)
Definition afk_after (n : nat) : option (Z * Z * Z) :=
  match unattended n afk_render afk_world afk_draws with
  | Some (w, _) =>
      Some (nBack (live w), blockTurnCount (refs w), blockMistakes (refs w))
  | None => None
  end.

(** ** A level raised during play

    With automatic progression off the [+] button is enabled during play.
    Pressing it re-renders the component, but the turn timer still holds
    the [nextTurn] of the render that started the session, with the level
    of that render; responses come from the current render.

    The session: start at level 1, press [+] twice, let the turn timer fire
    (second stimulus, at [INTERVAL_MS]), declare a match, let the turn timer
    fire again.  The result holds the world after the first firing, after
    the response, and after the second firing. *)
Definition manual_render : State :=
  mkState [Attribute.color] false symbolic rotation view false false false 60
    false 0 60 1 false Attribute.color None false "" "".
Definition manual_world : World :=
  mkWorld manual_render initialRefs (mkStorage None None).

Definition raised_level_run : option (World * World * World) :=
  match startGame manual_render 0 [] manual_world afk_draws with
  | Some ((w1, _), ds1) =>
      let w2 := nBackPlus (live w1) w1 in
      let w3 := nBackPlus (live w2) w2 in
      match nextTurn false manual_render INTERVAL_MS w3 ds1 with
      | Some (w4, ds2) =>
          let w5 := handleInput (live w4) 4000 a_match w4 in
          match nextTurn false manual_render (2 * INTERVAL_MS) w5 ds2 with
          | Some (w6, _) => Some (w4, w5, w6)
          | None => None
          end
      | None => None
      end
  | None => None
  end.

(** ** Sessions

    The worlds a session passes through: a start with at least one active
    rule, then turns, responses, countdown ticks, the timeout effect and
    stops, each run by the callback of whatever render holds it. *)

Inductive session_reachable : World → Prop :=
| session_start r now shuffles w ds w' shuffles' ds' :
    activeRules r ≠ [] →
    startGame r now shuffles w ds = Some ((w', shuffles'), ds') →
    session_reachable w'
| session_turn r now w ds w' ds' :
    session_reachable w →
    nextTurn false r now w ds = Some (w', ds') →
    session_reachable w'
| session_input r now action w :
    session_reachable w → session_reachable (handleInput r now action w)
| session_side r now side w :
    session_reachable w → session_reachable (handlePhysicalSide r now side w)
| session_tick w :
    session_reachable w → session_reachable (tick w)
| session_timeout r shortDate now w :
    session_reachable w → session_reachable (timeoutEffect r shortDate now w)
| session_stop w :
    session_reachable w → session_reachable (stopGame w).

(** What the countdown tick, a stop and the timeout effect leave alone. *)
Definition same_play (w w' : World) : Prop :=
  score (live w') = score (live w)
  ∧ scoreRef (refs w') = scoreRef (refs w)
  ∧ historyRef (refs w') = historyRef (refs w)
  ∧ totalTurns (refs w') = totalTurns (refs w)
  ∧ blockTurnCount (refs w') = blockTurnCount (refs w)
  ∧ totalMistakes (refs w') = totalMistakes (refs w)
  ∧ blockMistakes (refs w') = blockMistakes (refs w)
  ∧ hasResponded (refs w') = hasResponded (refs w).

(** ** History chart *)

Inductive ChartView := session | week | month.

(** One entry of [groups] in [chartData]. *)
Record Group := mkGroup {
  totalScore : Z;
  totalNBack : Z;
  count : Z
}.

(** [rawHistory.slice(-n)] *)
Definition slice_last {A} (n : nat) (xs : list A) : list A :=
  drop (length xs - n) xs.

(** [h.timestamp || Date.now()] *)
Definition getTs (now : Z) (h : GameHistory.t) : Z :=
  if decide (GameHistory.timestamp h = 0) then now else GameHistory.timestamp h.

(** The body of the [forEach]: [groups[key]] is created on first use and
    then accumulated in place.  [groups] keeps its keys in the order in
    which they were created, which is the order [Object.keys] and
    [Object.values] report for keys that are not array indices. *)
Fixpoint add_to_group (key : string) (h : GameHistory.t)
    (groups : list (string * Group)) : list (string * Group) :=
  match groups with
  | [] => [(key, mkGroup (0 + GameHistory.score h) (0 + GameHistory.maxNBack h) (0 + 1))]
  | (k, g) :: groups' =>
      if decide (k = key)
      then (k, mkGroup (totalScore g + GameHistory.score h)
                  (totalNBack g + GameHistory.maxNBack h) (count g + 1)) :: groups'
      else (k, g) :: add_to_group key h groups'
  end.

(** The aggregation of the week and month views.  [key_of_date] stands for
    the label computed from the local calendar date of a time stamp (the
    week number or the month name, by the locale); such a label is neither
    an array index nor the name of a property that every object has. *)
Definition chartGroups (key_of_date : Z → string) (now : Z)
    (rawHistory : list GameHistory.t) : list (string * Group) :=
  fold_left (λ groups h, add_to_group (key_of_date (getTs now h)) h groups)
    rawHistory [].

(** [Math.round(x)]: the nearest integer, halves upwards.  It is applied to
    the exact quotient; for totals below 2^52 the double quotient rounds to
    the same integer. *)
Definition Math_round (x : Q) : Z := Qfloor (x + (1 # 2)).

(** [labels] and the data of the 'Avg Score' line of [chartData]; [None] is
    [null].  The data of the 'Avg N-Back' line are the levels themselves in
    the session view; its averages in the other views go through [toFixed]
    on doubles and are left out ([None] in the third component). *)
Definition chartData (showHistory : bool) (chartView : ChartView)
    (key_of_date : Z → string) (now : Z) (w : World)
    : option (list string * list Z * option (list Z)) :=
  if negb showHistory then None else
  let rawHistory := default [] (rft_fluency_3d_history (storage w)) in
  match chartView with
  | session =>
      let slice := slice_last 50 rawHistory in
      Some (GameHistory.date <$> slice, GameHistory.score <$> slice,
            Some (GameHistory.maxNBack <$> slice))
  | _ =>
      let groups := chartGroups key_of_date now rawHistory in
      Some (groups.*1,
            (λ g, Math_round (inject_Z (totalScore g) / inject_Z (count g))) <$> groups.*2,
            None)
  end.

(** The stored games whose label is [key], and the sum of a list. *)
Definition games_with_key (key_of_date : Z → string) (now : Z) (key : string)
    (rawHistory : list GameHistory.t) : list GameHistory.t :=
  filter (λ h, key_of_date (getTs now h) = key) rawHistory.
Definition Zsum (xs : list Z) : Z := foldr Z.add 0 xs.

(** The totals of the games with the label [key]. *)
Definition totals (key_of_date : Z → string) (now : Z) (key : string)
    (rawHistory : list GameHistory.t) : Group :=
  let games := games_with_key key_of_date now key rawHistory in
  mkGroup (Zsum (GameHistory.score <$> games))
    (Zsum (GameHistory.maxNBack <$> games)) (Z.of_nat (length games)).

(** Three stored games, two of them with the same time stamp, and a label
    that is the time stamp in decimal. *)
Definition sample_history : list GameHistory.t :=
  [GameHistory.mk "11/3 9:05" 100 40 90%Q 2;
   GameHistory.mk "11/3 9:10" 200 15 60%Q 1;
   GameHistory.mk "11/3 9:15" 100 45 95%Q 3].
Definition sample_key (ts : Z) : string := "T" +:+ pretty ts.
Definition sample_stored : World :=
  mkWorld plain_render initialRefs (mkStorage (Some sample_history) None).

(** ** Attributes of stimuli *)

(** The two stimuli have the same raw value of the attribute [rule]. *)
Definition same_attribute (rule : Attribute.t) (s s' : Stimulus.t) : Prop :=
  match rule with
  | Attribute.color => Stimulus.color s = Stimulus.color s'
  | Attribute.shape => Stimulus.shape s = Stimulus.shape s'
  | Attribute.size => Stimulus.size s = Stimulus.size s'
  | Attribute.position => Stimulus.position s = Stimulus.position s'
  end.

(** The array that [scramblePerspectiveRules] relabels for [rule]. *)
Definition attribute_values (rule : Attribute.t) : list string :=
  match rule with
  | Attribute.color => ColorType_str <$> COLORS
  | Attribute.shape => ShapeType_str <$> SHAPES
  | Attribute.size => SizeType_str <$> SIZES
  | Attribute.position => PositionType_str <$> POSITIONS
  end.

(** Left and right exchanged. *)
Definition mirrored (p : PositionType.t) : PositionType.t :=
  match p with
  | PositionType.left => PositionType.right
  | PositionType.right => PositionType.left
  | PositionType.center => PositionType.center
  end.

(** The face of the cube that the observer of the stimulus looks at. *)
Definition facing_color (s : Stimulus.t) : ColorType :=
  match Stimulus.observerPos s with
  | me => Stimulus.color s
  | opposite => Stimulus.backColor s
  end.

(** * Theorems *)

Ltac solve_NoDup := apply (bool_decide_unpack _); by vm_compute.

(** ** Perspective transformer *)

Lemma Array_sort_pair_comm (a b : ColorType) :
  Array_sort [ColorType_str a; ColorType_str b]
  = Array_sort [ColorType_str b; ColorType_str a].
Proof. destruct a, b; reflexivity. Qed.

(** C7. Under the spatial perspective with the object strategy, the value
    judged for rule [color] is the same for two stimuli whose
    front/back colours agree as an unordered pair, whatever their
    [observerPos] (and whatever else differs between them). *)
Theorem spatial_object_color_unordered_pair r pm (s s' : Stimulus.t) :
  perspectiveMode r = true →
  perspectiveType r = spatial →
  spatialMatchMode r = object →
  (Stimulus.color s = Stimulus.color s' ∧ Stimulus.backColor s = Stimulus.backColor s')
  ∨ (Stimulus.color s = Stimulus.backColor s' ∧ Stimulus.backColor s = Stimulus.color s') →
  getTransformedValue r pm s Attribute.color
  = getTransformedValue r pm s' Attribute.color.
Proof.
  intros Hmode Htype Hobj Hpair. unfold getTransformedValue.
  rewrite Hmode, Htype, Hobj. cbn -[Array_sort].
  destruct Hpair as [[-> ->] | [-> ->]]; [reflexivity|].
  by rewrite Array_sort_pair_comm.
Qed.

Lemma spatial_object_color_unordered_pair_witness :
  getTransformedValue
    (sample_render true spatial object true true 60 1 Attribute.color) ∅
    (sample_stim red blue PositionType.center 0 me) Attribute.color
  = getTransformedValue
      (sample_render true spatial object true true 60 1 Attribute.color) ∅
      (sample_stim blue red PositionType.left 7 opposite) Attribute.color.
Proof.
  apply spatial_object_color_unordered_pair; try reflexivity.
  right. split; reflexivity.
Defined.

(** C8. Under the spatial perspective with rule [position]: the object
    strategy returns the raw position; the view strategy returns the raw
    position for [observerPos = me] and, for [opposite], swaps left and
    right and keeps center. *)
Theorem spatial_position_transform r pm (stim : Stimulus.t) :
  perspectiveMode r = true →
  perspectiveType r = spatial →
  (spatialMatchMode r = object →
     getTransformedValue r pm stim Attribute.position
     = Some (PositionType_str (Stimulus.position stim)))
  ∧ (spatialMatchMode r = view →
     (Stimulus.observerPos stim = me →
        getTransformedValue r pm stim Attribute.position
        = Some (PositionType_str (Stimulus.position stim)))
     ∧ (Stimulus.observerPos stim = opposite →
        getTransformedValue r pm stim Attribute.position
        = Some (PositionType_str
                  match Stimulus.position stim with
                  | PositionType.left => PositionType.right
                  | PositionType.right => PositionType.left
                  | PositionType.center => PositionType.center
                  end))).
Proof.
  intros Hmode Htype. unfold getTransformedValue. rewrite Hmode, Htype. cbn.
  split; [intros -> | intros ->; split; intros ->]; cbn; try reflexivity.
  by destruct (Stimulus.position stim).
Qed.

Lemma spatial_position_transform_witness :
  getTransformedValue
    (sample_render true spatial view true true 60 1 Attribute.position) ∅
    (sample_stim red blue PositionType.left 0 opposite) Attribute.position
  = Some "right".
Proof.
  exact (proj2 (proj2 (spatial_position_transform
                         (sample_render true spatial view true true 60 1
                            Attribute.position) ∅
                         (sample_stim red blue PositionType.left 0 opposite)
                         eq_refl eq_refl)
                  eq_refl) eq_refl).
Defined.

(** ** Scoring a response *)

Lemma speedBonus_range rt : 0 ≤ speedBonus rt ≤ 10.
Proof. unfold speedBonus. lia. Qed.

Lemma speedBonus_fast rt : rt ≤ 500 → speedBonus rt = 10.
Proof.
  intros H. unfold speedBonus.
  assert (10 ≤ (2000 - rt) / 150) by (apply Z.div_le_lower_bound; lia). lia.
Qed.

Lemma speedBonus_slow rt : 2000 ≤ rt → speedBonus rt = 0.
Proof.
  intros H. unfold speedBonus.
  assert ((2000 - rt) / 150 ≤ 0) by (apply Z.div_le_upper_bound; lia). lia.
Qed.

Lemma handleInput_guard r now action w :
  negb (isPlaying r)
  || (Z.of_nat (length (historyRef (refs w))) <=? nBack r)
  || hasResponded (refs w) = true →
  handleInput r now action w = w.
Proof. intros H. unfold handleInput. by rewrite H. Qed.

(** What a response that passes the guard does, field by field. *)
Lemma handleInput_scored r now action w currentStim targetStim :
  isPlaying r = true →
  hasResponded (refs w) = false →
  0 ≤ nBack r < Z.of_nat (length (historyRef (refs w))) →
  historyRef (refs w) !! Z.to_nat (Z.of_nat (length (historyRef (refs w))) - 1)
    = Some currentStim →
  historyRef (refs w)
    !! Z.to_nat (Z.of_nat (length (historyRef (refs w))) - 1 - nBack r)
    = Some targetStim →
  let isMatch :=
    bool_decide
      (getTransformedValue r (perspectiveMapping (refs w)) currentStim (currentRule r)
       = getTransformedValue r (perspectiveMapping (refs w)) targetStim (currentRule r)) in
  let points := 10 + nBack r * 5 + speedBonus (now - Stimulus.id currentStim) in
  let w' := handleInput r now action w in
  hasResponded (refs w') = true
  ∧ turnTimerRef (refs w') = Some 500
  ∧ storage w' = storage w
  ∧ historyRef (refs w') = historyRef (refs w)
  ∧ nBack (live w') = nBack (live w)
  ∧ blockTurnCount (refs w') = blockTurnCount (refs w)
  ∧ totalTurns (refs w') = totalTurns (refs w)
  ∧ if is_correct action isMatch then
      score (live w') = score (live w) + points
      ∧ scoreRef (refs w') = scoreRef (refs w) + points
      ∧ totalMistakes (refs w') = totalMistakes (refs w)
      ∧ blockMistakes (refs w') = blockMistakes (refs w)
    else
      score (live w') = score (live w) - 5
      ∧ scoreRef (refs w') = scoreRef (refs w) - 5
      ∧ totalMistakes (refs w') = totalMistakes (refs w) + 1
      ∧ blockMistakes (refs w') = blockMistakes (refs w) + 1.
Proof.
  intros Hplay Hresp Hn Hcur Htgt isMatch points w'.
  subst w'. unfold handleInput.
  rewrite Hplay, Hresp.
  replace (_ <=? nBack r) with false by (symmetry; apply Z.leb_gt; lia).
  cbn [negb orb].
  cbn [set_hasResponded on_refs refs historyRef perspectiveMapping].
  rewrite Hcur.
  replace (0 <=? _) with true by (symmetry; apply Z.leb_le; lia).
  rewrite Htgt. fold isMatch. fold points.
  destruct (is_correct action isMatch).
  - destruct (5 <? _); cbn; repeat split; reflexivity.
  - cbn; repeat split; reflexivity.
Qed.

(** C1, as the code has it. A correct response adds
    [10 + 5 * nBack + speedBonus] to the score, where the speed bonus is
    [max 0 (min 10 (floor ((2000 - reactionTime) / 150)))]: it lies in
    [0, 10], is 10 at reaction time 0 and 0 from 2000 ms on.  At n-back 1
    and reaction time 0 the response is worth 25 points. *)
Theorem correct_response_points r now action w currentStim targetStim :
  isPlaying r = true →
  hasResponded (refs w) = false →
  0 ≤ nBack r < Z.of_nat (length (historyRef (refs w))) →
  historyRef (refs w) !! Z.to_nat (Z.of_nat (length (historyRef (refs w))) - 1)
    = Some currentStim →
  historyRef (refs w)
    !! Z.to_nat (Z.of_nat (length (historyRef (refs w))) - 1 - nBack r)
    = Some targetStim →
  is_correct action
    (bool_decide
       (getTransformedValue r (perspectiveMapping (refs w)) currentStim (currentRule r)
        = getTransformedValue r (perspectiveMapping (refs w)) targetStim (currentRule r)))
    = true →
  let reactionTime := now - Stimulus.id currentStim in
  let gain := score (live (handleInput r now action w)) - score (live w) in
  gain = 10 + 5 * nBack r + speedBonus reactionTime
  ∧ scoreRef (refs (handleInput r now action w)) - scoreRef (refs w) = gain
  ∧ speedBonus reactionTime = Z.max 0 (Z.min 10 ((2000 - reactionTime) / 150))
  ∧ 0 ≤ speedBonus reactionTime ≤ 10
  ∧ (reactionTime = 0 → speedBonus reactionTime = 10 ∧ (nBack r = 1 → gain = 25))
  ∧ (2000 ≤ reactionTime → speedBonus reactionTime = 0).
Proof.
  intros Hplay Hresp Hn Hcur Htgt Hok reactionTime gain.
  destruct (handleInput_scored r now action w _ _ Hplay Hresp Hn Hcur Htgt)
    as (_ & _ & _ & _ & _ & _ & _ & Hscore).
  rewrite Hok in Hscore. destruct Hscore as (Hs & Hr & _).
  fold reactionTime in Hs, Hr.
  assert (Hgain : gain = 10 + 5 * nBack r + speedBonus reactionTime)
    by (subst gain; lia).
  split; [done|]. split; [lia|]. split; [done|].
  split; [apply speedBonus_range|]. split; [|apply speedBonus_slow].
  intros H0. rewrite Hgain, H0. split; [reflexivity|].
  intros H1. rewrite H1. reflexivity.
Qed.

Lemma correct_response_points_witness :
  score (live (handleInput plain_render 1000 a_match two_reds))
  - score (live two_reds) = 25.
Proof.
  assert (Hn : 0 ≤ nBack plain_render
               < Z.of_nat (length (historyRef (refs two_reds))))
    by (vm_compute; split; [discriminate | reflexivity]).
  destruct (correct_response_points plain_render 1000 a_match two_reds
              (sample_stim red green PositionType.center 1000 me)
              (sample_stim red blue PositionType.center 0 me)
              eq_refl eq_refl Hn eq_refl eq_refl eq_refl)
    as (_ & _ & _ & _ & H0 & _).
  exact (proj2 (H0 eq_refl) eq_refl).
Defined.

(** C1, the figure of the claim. The correct match response to the second
    of two red stimuli, given at the very millisecond the stimulus was
    created and at n-back 1, raises the score by 25, not by 35. *)
Lemma correct_response_at_0ms_is_not_35 :
  nBack plain_render = 1
  ∧ historyRef (refs two_reds) !! 1%nat
    = Some (sample_stim red green PositionType.center 1000 me)
  ∧ is_correct a_match
      (bool_decide
         (getTransformedValue plain_render ∅
            (sample_stim red green PositionType.center 1000 me) Attribute.color
          = getTransformedValue plain_render ∅
              (sample_stim red blue PositionType.center 0 me) Attribute.color))
    = true
  ∧ speedBonus (1000 - 1000) = 10
  ∧ score (live (handleInput plain_render 1000 a_match two_reds))
    = score (live two_reds) + 25
  ∧ score (live (handleInput plain_render 1000 a_match two_reds))
    ≠ score (live two_reds) + 35.
Proof. vm_compute. split_and!; (reflexivity || discriminate). Qed.

(** ** Ignored responses *)

(** A response either stops at the guard or leaves [hasResponded] set. *)
Lemma handleInput_guard_or_responded r now action w :
  (negb (isPlaying r)
   || (Z.of_nat (length (historyRef (refs w))) <=? nBack r)
   || hasResponded (refs w) = true
   ∧ handleInput r now action w = w)
  ∨ hasResponded (refs (handleInput r now action w)) = true.
Proof.
  unfold handleInput.
  destruct (negb (isPlaying r) || _ || hasResponded (refs w)) eqn:Hguard.
  - left. done.
  - right. cbn [set_hasResponded on_refs refs historyRef perspectiveMapping].
    destruct (historyRef (refs w) !! _); [|reflexivity].
    destruct (if 0 <=? _ then _ else _); [|reflexivity].
    destruct (is_correct _ _); [destruct (5 <? _)|]; reflexivity.
Qed.

Lemma handleInput_after_response r now action w :
  hasResponded (refs w) = true → handleInput r now action w = w.
Proof.
  intros H. apply handleInput_guard. rewrite H. apply orb_true_r.
Qed.

(** C6. [handleInput] returns the world unchanged when the session is not
    running, when the history is not longer than the n-back level, or when
    a response was already recorded.  Consequently, once a call has had an
    effect, any further call before [hasResponded] is cleared has none; and
    two calls from the same render never do more than the first. *)
Theorem handleInput_ignored r now action w :
  (isPlaying r = false
   ∨ Z.of_nat (length (historyRef (refs w))) ≤ nBack r
   ∨ hasResponded (refs w) = true →
   handleInput r now action w = w)
  ∧ (∀ r' now' action',
       handleInput r now action w ≠ w →
       handleInput r' now' action' (handleInput r now action w)
       = handleInput r now action w)
  ∧ (∀ now' action',
       handleInput r now' action' (handleInput r now action w)
       = handleInput r now action w).
Proof.
  split; [|split].
  - intros H. apply handleInput_guard.
    destruct H as [-> | [H | ->]]; [reflexivity | | apply orb_true_r].
    apply Z.leb_le in H. rewrite H. apply orb_true_iff. left. apply orb_true_r.
  - intros r' now' action' Hne.
    destruct (handleInput_guard_or_responded r now action w) as [[_ ?] | H];
      [done|]. by apply handleInput_after_response.
  - intros now' action'.
    destruct (handleInput_guard_or_responded r now action w) as [[Hg ->] | H].
    + by apply handleInput_guard.
    + by apply handleInput_after_response.
Qed.

Lemma handleInput_ignored_witness :
  handleInput plain_render 1000 a_match two_reds ≠ two_reds
  ∧ handleInput plain_render 1200 non_match
      (handleInput plain_render 1000 a_match two_reds)
    = handleInput plain_render 1000 a_match two_reds.
Proof.
  assert (H : handleInput plain_render 1000 a_match two_reds ≠ two_reds)
    by (intros H; apply (f_equal (λ w, hasResponded (refs w))) in H;
        vm_compute in H; discriminate).
  split; [exact H|].
  exact (proj1 (proj2 (handleInput_ignored plain_render 1000 a_match two_reds))
           plain_render 1200 non_match H).
Defined.

(** ** Adaptive difficulty, per block *)

Lemma Qltb_lt x y : Qltb x y = true ↔ (x < y)%Q.
Proof.
  unfold Qltb. rewrite negb_true_iff, <- not_true_iff_false, Qle_bool_iff.
  split; [apply Qnot_le_lt | apply Qlt_not_le].
Qed.

(** For a positive number of turns the percentage compares with a
    threshold as the integers do. *)
Lemma accuracy_of_ge (p turns mistakes : Z) :
  0 < turns →
  (inject_Z p <= accuracy_of turns mistakes)%Q ↔ p * turns ≤ 100 * (turns - mistakes).
Proof.
  intros Ht. unfold accuracy_of, Qle, Qdiv, Qmult, Qinv. cbn.
  destruct turns as [|t|t]; try lia. cbn. nia.
Qed.

Lemma accuracy_of_lt (p turns mistakes : Z) :
  0 < turns →
  (accuracy_of turns mistakes < inject_Z p)%Q ↔ 100 * (turns - mistakes) < p * turns.
Proof.
  intros Ht. unfold accuracy_of, Qlt, Qdiv, Qmult, Qinv. cbn.
  destruct turns as [|t|t]; try lia. cbn. nia.
Qed.

(** One call of [checkProgression] from the render [r].  With automatic
    progression on and the timer off, a block counter that has reached
    [BLOCK_SIZE = 20] raises the live n-back level by one when the block
    accuracy [(turns - mistakes) / turns] is at least 80%, lowers it by one
    when the accuracy is below 50% and the level of the render is above 1,
    and leaves it alone otherwise; both block counters are then zero.  With
    the timer on, automatic progression off, or fewer than 20 turns in the
    block, nothing changes at all. *)
Lemma checkProgression_block r w :
  let turns := blockTurnCount (refs w) in
  let mistakes := blockMistakes (refs w) in
  let w' := checkProgression r w in
  (autoProgress r = true → useTimer r = false → BLOCK_SIZE ≤ turns →
     blockTurnCount (refs w') = 0
     ∧ blockMistakes (refs w') = 0
     ∧ ((80 <= accuracy_of turns mistakes)%Q →
          nBack (live w') = nBack (live w) + 1)
     ∧ ((accuracy_of turns mistakes < 50)%Q → 1 < nBack r →
          nBack (live w') = nBack (live w) - 1)
     ∧ (¬ (80 <= accuracy_of turns mistakes)%Q →
        ¬ ((accuracy_of turns mistakes < 50)%Q ∧ 1 < nBack r) →
          nBack (live w') = nBack (live w)))
  ∧ (autoProgress r = false ∨ useTimer r = true ∨ turns < BLOCK_SIZE → w' = w).
Proof.
  intros turns mistakes w'. subst w'. unfold checkProgression.
  fold turns. fold mistakes. split.
  - intros -> -> Hturns.
    replace (turns <? BLOCK_SIZE) with false by (symmetry; apply Z.ltb_ge; lia).
    cbn [negb orb].
    destruct (Qle_bool 80 (accuracy_of turns mistakes)) eqn:Hup.
    + apply Qle_bool_iff in Hup. cbn. repeat split; try done.
      intros Hlow _. exfalso. revert Hlow. apply Qle_not_lt.
      apply Qle_trans with (2 := Hup). done.
    + assert (¬ (80 <= accuracy_of turns mistakes)%Q) as Hnup
        by (rewrite <- Qle_bool_iff, Hup; done).
      destruct (Qltb (accuracy_of turns mistakes) 50 && (1 <? nBack r)) eqn:Hdown.
      * apply andb_true_iff in Hdown as [Hlow Hn].
        apply Qltb_lt in Hlow. apply Z.ltb_lt in Hn.
        cbn. repeat split; try done. intros _ Hno. exfalso. by apply Hno.
      * cbn. repeat split; try done. intros Hlow Hn. exfalso.
        apply Qltb_lt in Hlow. apply Z.ltb_lt in Hn.
        rewrite Hlow, Hn in Hdown. done.
  - intros [-> | [-> | Hturns]]; [done | by rewrite orb_true_r |].
    apply Z.ltb_lt in Hturns. rewrite Hturns. by rewrite orb_true_r.
Qed.

Example checkProgression_block_level_up :
  blockTurnCount (refs (checkProgression
    (sample_render false symbolic view false true 60 1 Attribute.color)
    (sample_world (sample_render false symbolic view false true 60 1 Attribute.color)
       [] None 20 4 20 4 false))) = 0
  ∧ nBack (live (checkProgression
      (sample_render false symbolic view false true 60 1 Attribute.color)
      (sample_world (sample_render false symbolic view false true 60 1 Attribute.color)
         [] None 20 4 20 4 false))) = 2.
Proof.
  destruct (checkProgression_block
              (sample_render false symbolic view false true 60 1 Attribute.color)
              (sample_world
                 (sample_render false symbolic view false true 60 1 Attribute.color)
                 [] None 20 4 20 4 false)) as [H _].
  destruct H as (Hturns & _ & Hup & _);
    [reflexivity | reflexivity | vm_compute; discriminate |].
  split; [exact Hturns|].
  apply Hup. vm_compute. discriminate.
Defined.

(** The guard [nBack > 1] reads the level of the render that created the
    running [nextTurn], while [setNBack (n => n - 1)] acts on the live
    level: a callback still held by the turn timer after a level change
    lowers a live level of 1. *)
Remark checkProgression_behind_render :
  nBack (live (checkProgression
    (sample_render false symbolic view false true 60 2 Attribute.color)
    (sample_world (sample_render false symbolic view false true 60 1 Attribute.color)
       [] None 20 20 40 38 false))) = 0.
Proof. reflexivity. Qed.

(** C2, on a session nobody answers, started at level 2 with automatic
    progression on and the timer off.  The twenty-first turn finds 20 block turns at 10% accuracy and lowers
    the level to 1.  The forty-first turn finds 20 block turns at 0%
    accuracy while the level is 1 and lowers it to 0: the callback that
    the turn timer runs still compares the level 2 of its own render with
    1.  The block counters are reset at each check (and count the new turn
    afterwards). *)
Theorem unattended_session_level_drops_to_zero :
  nBack afk_render = 2
  ∧ afk_after 19 = Some (2, 20, 17)
  ∧ afk_after 20 = Some (1, 1, 0)
  ∧ afk_after 39 = Some (1, 20, 19)
  ∧ afk_after 40 = Some (0, 1, 0).
Proof. vm_compute. done. Qed.

(** ** Recording a session *)

Lemma endGame_timed_out r shortDate now w k :
  gameIntervalRef (refs w) = Some k →
  let accuracy :=
    if 0 <? totalTurns (refs w)
    then accuracy_of (totalTurns (refs w)) (totalMistakes (refs w)) else 0%Q in
  let w' := endGame true r shortDate now w in
  rft_fluency_3d_history (storage w')
  = Some (default [] (rft_fluency_3d_history (storage w))
          ++ [GameHistory.mk shortDate now (scoreRef (refs w)) accuracy (nBack r)])%list
  ∧ gameIntervalRef (refs w') = None
  ∧ isPlaying (live w') = false
  ∧ nBack (live w')
    = if autoProgress r && (0 <? totalTurns (refs w)) then
        if Qle_bool 80 accuracy then nBack (live w) + 1
        else if (1 <? nBack r) && Qltb accuracy 50 then nBack (live w) - 1
        else nBack (live w)
      else nBack (live w).
Proof.
  intros Hk accuracy w'. subst w'. unfold endGame. rewrite Hk.
  rewrite bool_decide_true by eauto. cbn [negb andb].
  cbn [setIsPlaying set_turnTimerRef set_gameIntervalRef on_live on_refs refs
       totalTurns totalMistakes live].
  fold accuracy.
  destruct (autoProgress r); cbn [andb]; [|done].
  destruct (0 <? totalTurns (refs w)); [|done].
  destruct (Qle_bool 80 accuracy); [done|].
  destruct ((1 <? nBack r) && Qltb accuracy 50); done.
Qed.



(** ** Active rules *)

(** The list [toggleRule] stores when the spatial guard lets it through:
    the [["color"]] fallback is never taken. *)
Lemma toggleRule_new_rules r rule w :
  is_spatial r
  && (bool_decide (rule = Attribute.shape) || bool_decide (rule = Attribute.size))
  = false →
  activeRules (live (toggleRule r rule w))
  = (if includes rule (activeRules r)
     then if decide (filter (λ x, x ≠ rule) (activeRules r) = [])
          then activeRules r else filter (λ x, x ≠ rule) (activeRules r)
     else activeRules r ++ [rule])%list
  ∧ activeRules (live (toggleRule r rule w)) ≠ [].
Proof.
  intros Hguard. unfold toggleRule. rewrite Hguard.
  cbn [set_rft_fluency_3d_rules setActiveRules on_storage on_live live activeRules].
  destruct (includes rule (activeRules r)) eqn:Hin.
  - apply bool_decide_eq_true in Hin.
    destruct (filter _ (activeRules r)) as [|y ys] eqn:Hfil; cbn.
    + destruct (activeRules r) as [|x xs]; [by apply elem_of_nil in Hin|].
      cbn. done.
    + done.
  - destruct (activeRules r); cbn; done.
Qed.

Lemma toggleRule_nonempty r rule w :
  activeRules (live w) ≠ [] → activeRules (live (toggleRule r rule w)) ≠ [].
Proof.
  intros Hne.
  destruct (is_spatial r && (bool_decide (rule = Attribute.shape)
                             || bool_decide (rule = Attribute.size))) eqn:Hguard.
  - unfold toggleRule. by rewrite Hguard.
  - by apply toggleRule_new_rules.
Qed.

Lemma rules_reachable_nonempty w :
  rules_reachable w → activeRules (live w) ≠ [].
Proof.
  induction 1 as [st | w Hw IH | w rule Hw IH].
  - done.
  - unfold loadSettings. destruct (rft_fluency_3d_rules (storage w)) as [parsed|];
      [|done].
    case_decide as Hlen; [|done]. cbn. destruct parsed; [cbn in Hlen; lia | done].
  - by apply toggleRule_nonempty.
Qed.

(** C10. In every world that the initial state, [loadSettings] and calls
    of [toggleRule] lead to, and so after every call of [toggleRule], the
    list of active rules is non-empty.  A call keeps a non-empty list
    non-empty whatever render it comes from; unticking the only active rule
    leaves the list as it was; and when the call is not stopped by the
    spatial guard the stored list is the toggled one, or the previous one
    when the toggled one would be empty. *)
Theorem toggleRule_keeps_a_rule r rule w :
  (rules_reachable w →
     activeRules (live w) ≠ []
     ∧ activeRules (live (toggleRule (live w) rule w)) ≠ [])
  ∧ (activeRules (live w) ≠ [] → activeRules (live (toggleRule r rule w)) ≠ [])
  ∧ (activeRules r = [rule] → activeRules (live w) = [rule] →
       activeRules (live (toggleRule r rule w)) = [rule])
  ∧ (is_spatial r
     && (bool_decide (rule = Attribute.shape) || bool_decide (rule = Attribute.size))
     = false →
       activeRules (live (toggleRule r rule w))
       = (if includes rule (activeRules r)
          then if decide (filter (λ x, x ≠ rule) (activeRules r) = [])
               then activeRules r else filter (λ x, x ≠ rule) (activeRules r)
          else activeRules r ++ [rule])%list
       ∧ activeRules (live (toggleRule r rule w)) ≠ []).
Proof.
  split; [|split; [|split]].
  - intros Hw. split; [by apply rules_reachable_nonempty|].
    apply toggleRule_nonempty. by apply rules_reachable_nonempty.
  - apply toggleRule_nonempty.
  - intros Hr Hlive.
    destruct (is_spatial r && (bool_decide (rule = Attribute.shape)
                               || bool_decide (rule = Attribute.size))) eqn:Hguard.
    + unfold toggleRule. by rewrite Hguard.
    + destruct (toggleRule_new_rules r rule w Hguard) as [-> _].
      rewrite Hr. unfold includes. rewrite bool_decide_true by left.
      rewrite filter_cons_False by (intros H; by apply H).
      rewrite filter_nil. by rewrite decide_True.
  - apply toggleRule_new_rules.
Qed.

Lemma toggleRule_keeps_a_rule_witness :
  activeRules (live (toggleRule initialState Attribute.color
                       (initialWorld (mkStorage None None))))
  = [Attribute.color].
Proof.
  exact (proj1 (proj2 (proj2 (toggleRule_keeps_a_rule initialState Attribute.color
                                (initialWorld (mkStorage None None)))))
           eq_refl eq_refl).
Defined.

(** The spatial guard of [toggleRule] returns before the list is looked
    at: on an empty list, which no reachable world has, it would leave the
    list empty. *)
Remark toggleRule_guard_returns_early :
  activeRules (live (toggleRule
    (mkState [] true spatial rotation view false false true 60 false 0 60 1
       true Attribute.color None false "" "")
    Attribute.shape
    (mkWorld
       (mkState [] true spatial rotation view false false true 60 false 0 60 1
          true Attribute.color None false "" "")
       initialRefs (mkStorage None None)))) = [].
Proof. reflexivity. Qed.

(** ** The random computations *)

Lemma Rand_bind_Some {A B} (f : A → Rand B) (m : Rand A) ds b ds' :
  (m ≫= f) ds = Some (b, ds') →
  ∃ a ds1, m ds = Some (a, ds1) ∧ f a ds1 = Some (b, ds').
Proof.
  unfold mbind, Rand_bind. destruct (m ds) as [[a ds1]|]; [eauto | done].
Qed.

Lemma Rand_ret_Some {A} (a b : A) ds ds' :
  (mret a : Rand A) ds = Some (b, ds') → a = b ∧ ds = ds'.
Proof. unfold mret, Rand_ret. by intros [= -> ->]. Qed.

Lemma resample_backColor_ne color ds : ∀ backColor backColor' ds',
  resample_backColor color backColor ds = Some (backColor', ds') →
  backColor' ≠ color.
Proof.
  induction ds as [|u ds IH]; intros b b' ds' H; cbn in H.
  - destruct (decide (b = color)); [done|]. by injection H as <- _.
  - destruct (decide (b = color)); [|by injection H as <- _].
    destruct (in_unit u); [|done].
    destruct (COLORS !! _) as [c|]; [|done]. by eapply IH.
Qed.

Lemma random_colors_length n : ∀ ds cs ds',
  random_colors n ds = Some (cs, ds') → length cs = n.
Proof.
  induction n as [|n IH]; intros ds cs ds' H; cbn in H.
  - by apply Rand_ret_Some in H as [<- _].
  - apply Rand_bind_Some in H as (c & ds1 & _ & H).
    apply Rand_bind_Some in H as (cs0 & ds2 & Hcs & H).
    apply Rand_ret_Some in H as [<- _]. cbn. f_equal. by eapply IH.
Qed.

(** ** Stimulus generator *)

Lemma generateStimulus_inv r now w ds stim w' ds' :
  generateStimulus r now w ds = Some ((stim, w'), ds') →
  Stimulus.backColor stim ≠ Stimulus.color stim
  ∧ Stimulus.netColors stim !! 2%nat = Some (Stimulus.color stim)
  ∧ Stimulus.netColors stim !! 5%nat = Some (Stimulus.backColor stim)
  ∧ length (Stimulus.netColors stim) = 6%nat
  ∧ Stimulus.id stim = now
  ∧ w' = set_lastStroopText (Stimulus.stroopText stim) w.
Proof.
  unfold generateStimulus. intros H.
  apply Rand_bind_Some in H as (color & ds1 & _ & H).
  apply Rand_bind_Some in H as (backColor0 & ds2 & _ & H).
  apply Rand_bind_Some in H as (backColor & ds3 & Hback & H).
  apply Rand_bind_Some in H as (netColors0 & ds4 & Hnet & H).
  cbv zeta in H.
  apply Rand_bind_Some in H as (shape0 & ds5 & _ & H).
  apply Rand_bind_Some in H as (shape & ds6 & _ & H).
  apply Rand_bind_Some in H as (size & ds7 & _ & H).
  apply Rand_bind_Some in H as (position & ds8 & _ & H).
  apply Rand_bind_Some in H as (stroopText0 & ds9 & _ & H).
  apply Rand_bind_Some in H as (stroopText & ds10 & _ & H).
  apply Rand_bind_Some in H as (stroopInk & ds11 & _ & H).
  apply Rand_bind_Some in H as (u & ds12 & _ & H).
  apply Rand_ret_Some in H as [[= <- <-] _]. cbn.
  apply resample_backColor_ne in Hback.
  apply random_colors_length in Hnet.
  split; [done|].
  do 7 (destruct netColors0 as [|? netColors0]; try done).
Qed.

(** C3. Every stimulus that [generateStimulus] returns has a back colour
    different from its colour, and carries the colour at index 2 and the
    back colour at index 5 of its net. *)
Theorem generated_stimulus_faces r now w ds stim w' ds' :
  generateStimulus r now w ds = Some ((stim, w'), ds') →
  Stimulus.backColor stim ≠ Stimulus.color stim
  ∧ Stimulus.netColors stim !! 2%nat = Some (Stimulus.color stim)
  ∧ Stimulus.netColors stim !! 5%nat = Some (Stimulus.backColor stim).
Proof.
  intros H. apply generateStimulus_inv in H as (? & ? & ? & _). done.
Qed.

Lemma generated_stimulus_faces_witness :
  ∃ stim w' ds',
    generateStimulus plain_render 1000 two_reds sample_draws
    = Some ((stim, w'), ds')
    ∧ Stimulus.backColor stim ≠ Stimulus.color stim
    ∧ Stimulus.netColors stim !! 2%nat = Some (Stimulus.color stim)
    ∧ Stimulus.netColors stim !! 5%nat = Some (Stimulus.backColor stim).
Proof.
  eexists _, _, _. split; [vm_compute; reflexivity|].
  eapply (generated_stimulus_faces plain_render 1000 two_reds sample_draws).
  vm_compute. reflexivity.
Defined.

(** ** Misses and wrong responses *)

Lemma checkMissedTarget_miss r w :
  nBack r < Z.of_nat (length (historyRef (refs w))) →
  hasResponded (refs w) = false →
  let w' := checkMissedTarget false r w in
  score (live w') = score (live w) - 5
  ∧ scoreRef (refs w') = scoreRef (refs w) - 5
  ∧ totalMistakes (refs w') = totalMistakes (refs w) + 1
  ∧ blockMistakes (refs w') = blockMistakes (refs w) + 1.
Proof.
  intros Hlen Hresp w'. subst w'. unfold checkMissedTarget.
  apply Z.ltb_lt in Hlen. rewrite Hlen, Hresp. cbn. done.
Qed.

Lemma checkMissedTarget_no_miss isReset r w :
  isReset = true
  ∨ Z.of_nat (length (historyRef (refs w))) ≤ nBack r
  ∨ hasResponded (refs w) = true →
  checkMissedTarget isReset r w = w.
Proof.
  unfold checkMissedTarget. intros [-> | [Hlen | ->]].
  - done.
  - apply Z.ltb_ge in Hlen. rewrite Hlen. by rewrite andb_false_r.
  - by rewrite andb_false_r.
Qed.

(** [checkProgression] touches the level, the feedback and the two block
    counters only. *)
Lemma checkProgression_frame r w :
  score (live (checkProgression r w)) = score (live w)
  ∧ scoreRef (refs (checkProgression r w)) = scoreRef (refs w)
  ∧ totalMistakes (refs (checkProgression r w)) = totalMistakes (refs w)
  ∧ totalTurns (refs (checkProgression r w)) = totalTurns (refs w)
  ∧ historyRef (refs (checkProgression r w)) = historyRef (refs w)
  ∧ storage (checkProgression r w) = storage w.
Proof.
  unfold checkProgression.
  destruct (negb (autoProgress r) || _ || useTimer r); [done|].
  destruct (Qle_bool 80 _); [done|].
  destruct (Qltb _ 50 && _); done.
Qed.

(** What a turn leaves behind, relative to the world after the miss check
    and the block check. *)
Lemma nextTurn_inv isReset r now w ds w' ds' :
  nextTurn isReset r now w ds = Some (w', ds') →
  let w1 := checkProgression r (checkMissedTarget isReset r w) in
  ∃ stim,
    historyRef (refs w') = (historyRef (refs w1) ++ [stim])%list
    ∧ currentStimulus (live w') = Some stim
    ∧ Stimulus.id stim = now
    ∧ Stimulus.backColor stim ≠ Stimulus.color stim
    ∧ hasResponded (refs w') = false
    ∧ turnTimerRef (refs w') = Some INTERVAL_MS
    ∧ score (live w') = score (live w1)
    ∧ scoreRef (refs w') = scoreRef (refs w1)
    ∧ totalMistakes (refs w') = totalMistakes (refs w1)
    ∧ blockMistakes (refs w') = blockMistakes (refs w1)
    ∧ totalTurns (refs w') = totalTurns (refs w1) + 1
    ∧ blockTurnCount (refs w') = blockTurnCount (refs w1) + 1
    ∧ nBack (live w') = nBack (live w1)
    ∧ storage w' = storage w1.
Proof.
  unfold nextTurn. cbv zeta.
  set (w1 := checkProgression r (checkMissedTarget isReset r w)).
  intros H.
  apply Rand_bind_Some in H as (swapped & ds1 & _ & H).
  apply Rand_bind_Some in H as (newRule & ds2 & _ & H).
  apply Rand_bind_Some in H as ([stim wg] & ds3 & Hgen & H).
  apply generateStimulus_inv in Hgen as (Hne & _ & _ & _ & Hid & ->).
  apply Rand_ret_Some in H as [<- _].
  exists stim.
  destruct (useTimer r && _ && _); [unfold startTimer|];
    cbn; try destruct (gameIntervalRef (refs w1)); cbn; done.
Qed.

(** Within one call.  A wrong response and a miss each take exactly 5 from
    the score (state and ref) and add one to the total and to the block
    mistake counter.  [nextTurn] finds a miss exactly when it is not the
    initial call, the history is longer than the n-back level of the render
    the callback belongs to and no response was recorded; nothing else in
    the turn touches the score or the total mistakes.  The score has no
    floor: a miss at score 0 leaves -5. *)
Theorem mistakes_cost_five :
  (∀ r now action w currentStim targetStim,
     isPlaying r = true →
     hasResponded (refs w) = false →
     0 ≤ nBack r < Z.of_nat (length (historyRef (refs w))) →
     historyRef (refs w) !! Z.to_nat (Z.of_nat (length (historyRef (refs w))) - 1)
       = Some currentStim →
     historyRef (refs w)
       !! Z.to_nat (Z.of_nat (length (historyRef (refs w))) - 1 - nBack r)
       = Some targetStim →
     is_correct action
       (bool_decide
          (getTransformedValue r (perspectiveMapping (refs w)) currentStim (currentRule r)
           = getTransformedValue r (perspectiveMapping (refs w)) targetStim (currentRule r)))
       = false →
     let w' := handleInput r now action w in
     score (live w') = score (live w) - 5
     ∧ scoreRef (refs w') = scoreRef (refs w) - 5
     ∧ totalMistakes (refs w') = totalMistakes (refs w) + 1
     ∧ blockMistakes (refs w') = blockMistakes (refs w) + 1)
  ∧ (∀ isReset r w,
       let w' := checkMissedTarget isReset r w in
       (isReset = false
        ∧ nBack r < Z.of_nat (length (historyRef (refs w)))
        ∧ hasResponded (refs w) = false →
          score (live w') = score (live w) - 5
          ∧ scoreRef (refs w') = scoreRef (refs w) - 5
          ∧ totalMistakes (refs w') = totalMistakes (refs w) + 1
          ∧ blockMistakes (refs w') = blockMistakes (refs w) + 1)
       ∧ (¬ (isReset = false
             ∧ nBack r < Z.of_nat (length (historyRef (refs w)))
             ∧ hasResponded (refs w) = false) →
          w' = w))
  ∧ (∀ isReset r now w ds w' ds',
       nextTurn isReset r now w ds = Some (w', ds') →
       score (live w') = score (live (checkMissedTarget isReset r w))
       ∧ scoreRef (refs w') = scoreRef (refs (checkMissedTarget isReset r w))
       ∧ totalMistakes (refs w')
         = totalMistakes (refs (checkMissedTarget isReset r w)))
  ∧ score (live (checkMissedTarget false plain_render two_reds)) = -5.
Proof.
  split; [|split; [|split]].
  - intros r now action w cur tgt Hplay Hresp Hn Hcur Htgt Hwrong w'.
    destruct (handleInput_scored r now action w _ _ Hplay Hresp Hn Hcur Htgt)
      as (_ & _ & _ & _ & _ & _ & _ & Hscore).
    by rewrite Hwrong in Hscore.
  - intros isReset r w w'. split.
    + intros (-> & Hlen & Hresp). by apply checkMissedTarget_miss.
    + intros Hno. apply checkMissedTarget_no_miss.
      destruct isReset; [by left|]. right.
      destruct (hasResponded (refs w)); [by right|]. left.
      destruct (Z.le_gt_cases (Z.of_nat (length (historyRef (refs w)))) (nBack r));
        [done|]. exfalso. apply Hno. split_and!; [done | lia | done].
  - intros isReset r now w ds w' ds' H.
    apply nextTurn_inv in H as (stim & _ & _ & _ & _ & _ & _ & Hs & Hr & Hm & _).
    destruct (checkProgression_frame r (checkMissedTarget isReset r w))
      as (Hs' & Hr' & Hm' & _).
    by rewrite Hs, Hr, Hm, Hs', Hr', Hm'.
  - reflexivity.
Qed.

Lemma mistakes_cost_five_witness :
  score (live (handleInput plain_render 1400 non_match two_reds)) = -5
  ∧ ∃ w' ds',
      nextTurn false plain_render 4500 two_reds sample_draws = Some (w', ds')
      ∧ score (live w') = -5
      ∧ totalMistakes (refs w') = 1.
Proof.
  destruct mistakes_cost_five as (Hwrong & Hmiss & Hturn & _).
  split.
  - refine (proj1 (Hwrong plain_render 1400 non_match two_reds
              (sample_stim red green PositionType.center 1000 me)
              (sample_stim red blue PositionType.center 0 me)
              eq_refl eq_refl _ eq_refl eq_refl eq_refl)).
    vm_compute. split; [discriminate | reflexivity].
  - eexists _, _. split; [vm_compute; reflexivity|].
    destruct (Hturn false plain_render 4500 two_reds sample_draws _ _
                ltac:(vm_compute; reflexivity)) as (Hs & _ & Hm).
    split; [exact Hs | exact Hm].
Defined.

(** C9, on a session whose level is raised by hand.  Started at level 1
    with automatic progression off; the player presses [+] twice, so that
    the level is 3 when the second stimulus appears.  The history then has
    2 stimuli, which does not exceed the level: the player's response is
    ignored for that reason, and a turn run from the current render finds no
    miss.  The turn timer, however, runs the callback of the render that
    started the session, which compares the history with level 1: it counts
    a miss, takes 5 from the score (state and ref) and adds one to both
    mistake counters, while the level is still 3. *)
Theorem stale_turn_counts_a_miss_below_the_level :
  ∃ w4 w5 w6,
    raised_level_run = Some (w4, w5, w6)
    ∧ nBack (live w4) = 3
    ∧ isPlaying (live w4) = true
    ∧ length (historyRef (refs w4)) = 2%nat
    ∧ w5 = w4
    ∧ hasResponded (refs w5) = false
    ∧ checkMissedTarget false (live w5) w5 = w5
    ∧ nBack (live w6) = 3
    ∧ length (historyRef (refs w6)) = 3%nat
    ∧ score (live w6) = -5
    ∧ scoreRef (refs w6) = -5
    ∧ totalMistakes (refs w6) = 1
    ∧ blockMistakes (refs w6) = 1.
Proof.
  eexists _, _, _. split; [vm_compute; reflexivity|].
  vm_compute. repeat split; reflexivity.
Qed.

(** ** Symbolic relabeling tables *)

Lemma has_fixed_point_false values : ∀ shuffled i v,
  has_fixed_point values shuffled = false →
  values !! i = Some v → shuffled !! i ≠ Some v.
Proof.
  induction values as [|x values IH]; intros shuffled i v Hfp Hv; [done|].
  destruct shuffled as [|s shuffled]; [done|]. cbn in Hfp.
  destruct (decide (x = s)) as [|Hxs]; [done|].
  destruct i as [|i]; cbn in *.
  - injection Hv as <-. by intros [= <-].
  - by eapply IH.
Qed.

(** The table built by [map[values[i]] = shuffled[i]], for distinct keys. *)
Lemma fold_insert_lookup (kvs : list (string * string)) : ∀ (m : gmap string string) k v,
  NoDup (kvs.*1) →
  fold_left (λ map kv, <[kv.1 := kv.2]> map) kvs m !! k = Some v
  ↔ (k, v) ∈ kvs ∨ ((k ∉ kvs.*1) ∧ m !! k = Some v).
Proof.
  induction kvs as [|[k0 v0] kvs IH]; intros m k v Hnd; cbn.
  - split; [intros H; right; split; [apply not_elem_of_nil | done]|].
    intros [H | [_ H]]; [by apply elem_of_nil in H | done].
  - apply NoDup_cons in Hnd as [Hk0 Hnd]. rewrite IH by done.
    rewrite elem_of_cons, not_elem_of_cons.
    destruct (decide (k = k0)) as [->|Hne].
    + rewrite lookup_insert_eq. split.
      * intros [Hin | [_ [= ->]]]; [|by left; left].
        exfalso. apply Hk0. apply list_elem_of_fmap. by exists (k0, v).
      * intros [[[= ->] | Hin] | [[] _]]; [right; by split | by left | done].
    + rewrite lookup_insert_ne by done. split.
      * intros [Hin | [Hnot Hm]]; [left; by right | right; by split].
      * intros [[[= ? ?] | Hin] | [[_ Hnot] Hm]]; [done | by left | by right].
Qed.

Lemma shuffle_until_valid_inv values : ∀ shuffles shuffled shuffles',
  sorts_permute shuffles →
  shuffle_until_valid values shuffles = Some (shuffled, shuffles') →
  shuffled ≡ₚ values
  ∧ has_fixed_point values shuffled = false
  ∧ sorts_permute shuffles'.
Proof.
  induction shuffles as [|f shuffles IH]; intros shuffled shuffles' Hperm H;
    [done|].
  apply Forall_cons in Hperm as [Hf Hperm]. cbn in H.
  destruct (has_fixed_point values (f values)) eqn:Hfp; [by apply IH|].
  injection H as <- <-. done.
Qed.

(** A table returned by [generateCyclicMapping] for distinct values. *)
Lemma generateCyclicMapping_derangement values shuffles map shuffles' :
  NoDup values →
  sorts_permute shuffles →
  generateCyclicMapping values shuffles = Some (map, shuffles') →
  derangement_on values map ∧ sorts_permute shuffles'.
Proof.
  intros Hnd Hperm H. unfold generateCyclicMapping in H.
  destruct (shuffle_until_valid values shuffles) as [[shuffled rest]|] eqn:Hsh;
    [|done].
  injection H as <- <-.
  apply shuffle_until_valid_inv in Hsh as (Hp & Hfp & Hrest); [|done].
  split; [|done].
  assert (Hlen : length shuffled = length values) by (by rewrite Hp).
  assert (Hnd' : NoDup shuffled) by (by rewrite Hp).
  assert (Hkeys : NoDup (zip values shuffled).*1)
    by (rewrite fst_zip by lia; done).
  assert (Hlookup : ∀ k v,
    fold_left (λ map kv, <[kv.1 := kv.2]> map) (zip values shuffled)
      (∅ : gmap string string) !! k = Some v
    ↔ ∃ i, values !! i = Some k ∧ shuffled !! i = Some v).
  { intros k v. rewrite fold_insert_lookup by done.
    rewrite lookup_empty, list_elem_of_lookup. split.
    - intros [[i Hi] | [_ ?]]; [|done]. exists i.
      apply lookup_zip_with_Some in Hi as (x & y & [= -> ->] & ? & ?). done.
    - intros (i & Hk & Hv). left. exists i.
      apply lookup_zip_with_Some. by exists k, v. }
  unfold derangement_on. split_and!.
  - intros v [i Hi]%list_elem_of_lookup.
    destruct (lookup_lt_is_Some_2 shuffled i) as [v' Hv'].
    { rewrite Hlen. by eapply lookup_lt_Some. }
    exists v'. split_and!.
    + apply Hlookup. by exists i.
    + rewrite <- Hp. by eapply list_elem_of_lookup_2.
    + intros ->. exact (has_fixed_point_false _ _ _ _ Hfp Hi Hv').
  - intros v1 v2 v' H1 H2.
    apply Hlookup in H1 as (i & Hi1 & Hi2).
    apply Hlookup in H2 as (j & Hj1 & Hj2).
    assert (i = j) as -> by exact (NoDup_lookup _ _ _ _ Hnd' Hi2 Hj2).
    congruence.
  - intros v' Hv'. rewrite <- Hp in Hv'.
    apply list_elem_of_lookup in Hv' as [i Hi].
    destruct (lookup_lt_is_Some_2 values i) as [v Hv].
    { rewrite <- Hlen. by eapply lookup_lt_Some. }
    exists v. split; [by eapply list_elem_of_lookup_2|].
    apply Hlookup. by exists i.
  - intros v [v' Hv']. apply Hlookup in Hv' as (i & Hi & _).
    by eapply list_elem_of_lookup_2.
Qed.

Lemma rotate_left_permutes xs : rotate_left xs ≡ₚ xs.
Proof.
  unfold rotate_left. rewrite Permutation_app_comm. by rewrite take_drop.
Qed.

Lemma sample_shuffles_permute : sorts_permute sample_shuffles.
Proof.
  unfold sorts_permute, sample_shuffles.
  repeat constructor; intros xs; (done || apply rotate_left_permutes).
Qed.

(** C4. When every random sort returns a rearrangement of its argument,
    the four tables that [scramblePerspectiveRules] stores at session start
    (under the keys color, shape, size and position) each send every value
    of their enumeration to a different value of the same enumeration, are
    injective, hit every value and have no other keys. *)
Theorem relabeling_tables_are_derangements shuffles w w' shuffles' :
  sorts_permute shuffles →
  scramblePerspectiveRules shuffles w = Some (w', shuffles') →
  ∃ mcolor mshape msize mposition,
    perspectiveMapping (refs w') !! "color" = Some mcolor
    ∧ perspectiveMapping (refs w') !! "shape" = Some mshape
    ∧ perspectiveMapping (refs w') !! "size" = Some msize
    ∧ perspectiveMapping (refs w') !! "position" = Some mposition
    ∧ derangement_on (ColorType_str <$> COLORS) mcolor
    ∧ derangement_on (ShapeType_str <$> SHAPES) mshape
    ∧ derangement_on (SizeType_str <$> SIZES) msize
    ∧ derangement_on (PositionType_str <$> POSITIONS) mposition.
Proof.
  intros Hperm H. unfold scramblePerspectiveRules in H.
  apply bind_Some in H as ([mcolor sh1] & H1 & H).
  apply bind_Some in H as ([mshape sh2] & H2 & H).
  apply bind_Some in H as ([msize sh3] & H3 & H).
  apply bind_Some in H as ([mposition sh4] & H4 & H).
  injection H as <- <-.
  apply generateCyclicMapping_derangement in H1 as [D1 P1];
    [|solve_NoDup|done].
  apply generateCyclicMapping_derangement in H2 as [D2 P2];
    [|solve_NoDup|done].
  apply generateCyclicMapping_derangement in H3 as [D3 P3];
    [|solve_NoDup|done].
  apply generateCyclicMapping_derangement in H4 as [D4 P4];
    [|solve_NoDup|done].
  exists mcolor, mshape, msize, mposition. cbn.
  split_and!; try done; by simplify_map_eq.
Qed.

Lemma relabeling_tables_are_derangements_witness :
  ∃ w' shuffles' mcolor,
    scramblePerspectiveRules sample_shuffles two_reds = Some (w', shuffles')
    ∧ perspectiveMapping (refs w') !! "color" = Some mcolor
    ∧ mcolor !! "red" = Some "blue"
    ∧ derangement_on (ColorType_str <$> COLORS) mcolor.
Proof.
  destruct (scramblePerspectiveRules sample_shuffles two_reds)
    as [[w' shuffles']|] eqn:H; [|by vm_compute in H].
  destruct (relabeling_tables_are_derangements sample_shuffles two_reds w' shuffles'
              sample_shuffles_permute H)
    as (mcolor & _ & _ & _ & Hc & _ & _ & _ & D & _).
  exists w', shuffles', mcolor. split; [done|]. split; [done|]. split; [|done].
  vm_compute in H. injection H as <- _. vm_compute in Hc.
  injection Hc as <-. reflexivity.
Defined.

(** ** The computations run to completion

    With numbers in [0, 1) and enough of them, every random step has a
    result. *)

Lemma enough_weaken n m ds : (m ≤ n)%nat → enough n ds → enough m ds.
Proof. intros Hle [Hall Hlen]. split; [done | lia]. Qed.

Lemma Math_floor_mul_lt u n :
  in_unit u = true → (0 < n)%nat → (Math_floor_mul u n < n)%nat.
Proof.
  intros Hu Hn. unfold in_unit in Hu. apply andb_true_iff in Hu as [H0 H1].
  apply Qle_bool_iff in H0. apply Qltb_lt in H1.
  unfold Math_floor_mul.
  set (x := (u * inject_Z (Z.of_nat n))%Q).
  assert (Hpos : (0 < inject_Z (Z.of_nat n))%Q)
    by (rewrite <- (Zlt_Qlt 0); lia).
  assert (Hlo : 0 ≤ Qfloor x).
  { change 0 with (Qfloor 0). apply Qfloor_resp_le.
    apply Qmult_le_0_compat; [done | by apply Qlt_le_weak]. }
  assert (Hhi : Qfloor x < Z.of_nat n).
  { rewrite Zlt_Qlt. apply Qle_lt_trans with x; [apply Qfloor_le|].
    apply Qlt_le_trans with (1 * inject_Z (Z.of_nat n))%Q;
      [by apply Qmult_lt_compat_r|].
    rewrite Qmult_1_l. apply Qle_refl. }
  lia.
Qed.

Lemma Math_random_enough n ds :
  enough (S n) ds →
  ∃ u ds', Math_random ds = Some (u, ds') ∧ in_unit u = true ∧ enough n ds'.
Proof.
  intros [Hall Hlen]. destruct ds as [|u ds]; [cbn in Hlen; lia|].
  apply Forall_cons in Hall as [Hu Hall]. exists u, ds. cbn. rewrite Hu.
  split; [done|]. split; [done|]. split; [done | cbn in Hlen; lia].
Qed.

Lemma random_element_enough {A} (xs : list A) n ds :
  xs ≠ [] → enough (S n) ds →
  ∃ x ds', random_element xs ds = Some (x, ds') ∧ x ∈ xs ∧ enough n ds'.
Proof.
  intros Hxs Hds. destruct (Math_random_enough n ds Hds) as (u & ds' & Hr & Hu & Hds').
  destruct (lookup_lt_is_Some_2 xs (Math_floor_mul u (length xs))) as [x Hx].
  { apply Math_floor_mul_lt; [done|]. destruct xs; [done | cbn; lia]. }
  exists x, ds'. unfold random_element, mbind, Rand_bind. rewrite Hr.
  unfold Rand_index. rewrite Hx.
  split; [done|]. split; [by eapply list_elem_of_lookup_2 | done].
Qed.

Lemma random_element_or_enough {A} (c : bool) (xs : list A) (x0 : A) n ds :
  xs ≠ [] → enough (S n) ds →
  ∃ x ds', (if c then random_element xs else mret x0) ds = Some (x, ds')
           ∧ enough n ds'.
Proof.
  intros Hxs Hds. destruct c.
  - destruct (random_element_enough xs n ds Hxs Hds) as (x & ds' & ? & _ & ?).
    by exists x, ds'.
  - exists x0, ds. split; [done|]. eapply enough_weaken; [|done]. lia.
Qed.

Lemma random_colors_enough k : ∀ n ds,
  enough (k + n) ds →
  ∃ cs ds', random_colors k ds = Some (cs, ds') ∧ enough n ds'.
Proof.
  induction k as [|k IH]; intros n ds Hds.
  - by exists [], ds.
  - destruct (random_element_enough COLORS (k + n) ds) as (c & ds1 & Hc & _ & Hds1);
      [done | done |].
    destruct (IH n ds1 Hds1) as (cs & ds2 & Hcs & Hds2).
    exists (c :: cs), ds2. cbn. unfold mbind, Rand_bind.
    rewrite Hc. fold (random_colors k). rewrite Hcs. done.
Qed.

(** The resampling loop ends as soon as a number gives another colour. *)
Lemma resample_backColor_enough color k : ∀ n backColor ds,
  enough (k + n) ds →
  backColor ≠ color
  ∨ Exists (λ u, COLORS !! Math_floor_mul u (length COLORS) ≠ Some color)
      (take k ds) →
  ∃ backColor' ds',
    resample_backColor color backColor ds = Some (backColor', ds')
    ∧ enough n ds'.
Proof.
  induction k as [|k IH]; intros n b ds Hds Hexit.
  - destruct Hexit as [Hne | Hex]; [|by apply Exists_nil in Hex].
    exists b, ds. split; [|done].
    destruct ds; cbn; by rewrite decide_False.
  - destruct (decide (b = color)) as [->|Hne].
    + destruct Hexit as [? | Hex]; [done|].
      destruct ds as [|u ds]; [by apply Exists_nil in Hex|].
      destruct Hds as [Hall Hlen]. apply Forall_cons in Hall as [Hu Hall].
      cbn in Hlen. cbn [resample_backColor]. rewrite decide_True by done.
      rewrite Hu.
      destruct (lookup_lt_is_Some_2 COLORS (Math_floor_mul u (length COLORS)))
        as [c Hc]; [by apply Math_floor_mul_lt; [|cbn; lia]|].
      rewrite Hc. apply IH; [split; [done | lia]|].
      cbn in Hex. apply Exists_cons in Hex as [Hex | Hex]; [|by right].
      left. intros ->. by apply Hex.
    + exists b, ds. split.
      * destruct ds; cbn; by rewrite decide_False.
      * eapply enough_weaken; [|done]. lia.
Qed.

(** Sixteen numbers suffice for a stimulus when the first two give
    different colours; [k] more when the back colour is found only at the
    [k]-th resampling. *)
Lemma generateStimulus_runs r now w k u0 ds0 :
  enough (16 + k) (u0 :: ds0) →
  Exists (λ u, COLORS !! Math_floor_mul u (length COLORS)
               ≠ COLORS !! Math_floor_mul u0 (length COLORS))
    (take (S k) ds0) →
  ∃ stim w' ds', generateStimulus r now w (u0 :: ds0) = Some ((stim, w'), ds').
Proof.
  intros Hds Hexit. unfold generateStimulus, mbind, Rand_bind.
  destruct (random_element_enough COLORS (15 + k) (u0 :: ds0))
    as (color & ds1 & Hcolor & _ & Hds1); [done | done |].
  assert (ds1 = ds0 ∧ COLORS !! Math_floor_mul u0 (length COLORS) = Some color)
    as [-> Hu0].
  { unfold random_element, mbind, Rand_bind, Math_random, Rand_index in Hcolor.
    destruct (in_unit u0); [|done].
    destruct (COLORS !! Math_floor_mul u0 (length COLORS)); [|done].
    by injection Hcolor as -> ->. }
  rewrite Hcolor. rewrite Hu0 in Hexit.
  destruct ds0 as [|u1 ds2]; [by apply Exists_nil in Hexit|].
  destruct (random_element_enough COLORS (14 + k) (u1 :: ds2))
    as (backColor0 & ds2' & Hback0 & _ & Hds2); [done | done |].
  assert (ds2' = ds2 ∧ COLORS !! Math_floor_mul u1 (length COLORS) = Some backColor0)
    as [-> Hu1].
  { unfold random_element, mbind, Rand_bind, Math_random, Rand_index in Hback0.
    destruct (in_unit u1); [|done].
    destruct (COLORS !! Math_floor_mul u1 (length COLORS)); [|done].
    by injection Hback0 as -> ->. }
  rewrite Hback0.
  destruct (resample_backColor_enough color k 14 backColor0 ds2)
    as (backColor & ds3 & Hback & Hds3).
  { eapply enough_weaken; [|done]. lia. }
  { cbn in Hexit. apply Exists_cons in Hexit as [Hex | Hex]; [|by right].
    left. intros ->. by apply Hex. }
  rewrite Hback.
  destruct (random_colors_enough 6 8 ds3 Hds3) as (netColors0 & ds4 & Hnet & Hds4).
  rewrite Hnet. cbv zeta.
  edestruct (random_element_or_enough
               (includes Attribute.shape (activeRules r) || distractorsEnabled r)
               SHAPES cube 7 ds4) as (shape0 & ds5 & -> & Hds5); [done | done |].
  assert (∃ shape ds6,
    (if is_spatial r && negb (bool_decide (spatialType r = cutout))
     then mret cube
     else if is_spatial r && bool_decide (spatialType r = cutout)
     then u ← Math_random; mret (if Qltb (1 # 2) u then cube else sphere)
     else mret shape0) ds5 = Some (shape, ds6) ∧ enough 6 ds6)
    as (shape & ds6 & Hshape & Hds6).
  { destruct (is_spatial r && negb _).
    { eexists _, _. split; [done|]. eapply enough_weaken; [|done]. lia. }
    destruct (is_spatial r && _).
    - destruct (Math_random_enough 6 ds5 Hds5) as (u & ds6 & Hu & _ & Hds6).
      eexists _, ds6. unfold mbind, Rand_bind. rewrite Hu. done.
    - eexists _, _. split; [done|]. eapply enough_weaken; [|done]. lia. }
  unfold mbind, Rand_bind in Hshape. rewrite Hshape.
  edestruct (random_element_or_enough
               (includes Attribute.size (activeRules r) || distractorsEnabled r)
               SIZES medium 5 ds6) as (size & ds7 & -> & Hds7); [done | done |].
  edestruct (random_element_or_enough
               (includes Attribute.position (activeRules r) || distractorsEnabled r)
               POSITIONS PositionType.center 4 ds7)
    as (position & ds8 & -> & Hds8); [done | done |].
  destruct (random_element_enough STROOP_WORDS 3 ds8)
    as (stroopText0 & ds9 & -> & _ & Hds9); [done | done |].
  assert (∃ stroopText ds10,
    (if decide (stroopText0 = lastStroopText (refs w))
     then random_element STROOP_WORDS else mret stroopText0) ds9
    = Some (stroopText, ds10) ∧ enough 2 ds10)
    as (stroopText & ds10 & -> & Hds10).
  { destruct (decide _).
    - destruct (random_element_enough STROOP_WORDS 2 ds9)
        as (x & ds10 & ? & _ & ?); [done | done |]. by exists x, ds10.
    - eexists _, _. split; [done|]. eapply enough_weaken; [|done]. lia. }
  destruct (random_element_enough COLORS 1 ds10)
    as (stroopInk & ds11 & -> & _ & Hds11); [done | done |].
  destruct (Math_random_enough 0 ds11 Hds11) as (u & ds12 & -> & _ & _).
  by eexists _, _, _.
Qed.

(** The [while] loop of [generateCyclicMapping] ends at the first sort
    that leaves no value in its place. *)
Lemma generateCyclicMapping_runs values shuffles :
  Exists (λ sort_random, has_fixed_point values (sort_random values) = false)
    shuffles →
  is_Some (generateCyclicMapping values shuffles).
Proof.
  unfold generateCyclicMapping.
  induction 1 as [f shuffles Hf | f shuffles Hex IH]; cbn.
  - by rewrite Hf.
  - destruct (has_fixed_point values (f values)); [|done].
    by destruct (shuffle_until_valid values shuffles) as [[? ?]|].
Qed.

(** * Further properties *)

(** ** Invariants of a session *)

(** Score, counters and history before and after any response. *)
Lemma handleInput_effect r now action w :
  let w' := handleInput r now action w in
  w' = w
  ∨ (hasResponded (refs w) = false
     ∧ hasResponded (refs w') = true
     ∧ historyRef (refs w') = historyRef (refs w)
     ∧ totalTurns (refs w') = totalTurns (refs w)
     ∧ blockTurnCount (refs w') = blockTurnCount (refs w)
     ∧ score (live w') - score (live w) = scoreRef (refs w') - scoreRef (refs w)
     ∧ ((totalMistakes (refs w') = totalMistakes (refs w)
         ∧ blockMistakes (refs w') = blockMistakes (refs w))
        ∨ (totalMistakes (refs w') = totalMistakes (refs w) + 1
           ∧ blockMistakes (refs w') = blockMistakes (refs w) + 1))).
Proof.
  intros w'. subst w'. unfold handleInput.
  destruct (negb (isPlaying r)); [by left|].
  destruct (_ <=? nBack r); [by left|].
  destruct (hasResponded (refs w)) eqn:Hresp; [by left|].
  right. cbn [orb set_hasResponded on_refs refs historyRef perspectiveMapping].
  destruct (historyRef (refs w) !! _);
    [|cbn; split_and!; try done; [lia | by left]].
  destruct (if 0 <=? _ then _ else _);
    [|cbn; split_and!; try done; [lia | by left]].
  destruct (is_correct _ _); [destruct (5 <? _)|];
    cbn; split_and!; try done; try lia; (by left) || (by right).
Qed.

Lemma handlePhysicalSide_as_input r now side w :
  handlePhysicalSide r now side w = w
  ∨ ∃ action, handlePhysicalSide r now side w = handleInput r now action w.
Proof.
  unfold handlePhysicalSide. destruct (negb (isPlaying r)); [by left|].
  right. eauto.
Qed.

(** A turn leaves the playing flag, the countdown and the stored settings
    alone. *)
Lemma nextTurn_settings isReset r now w ds w' ds' :
  nextTurn isReset r now w ds = Some (w', ds') →
  isPlaying (live w') = isPlaying (live w)
  ∧ timeLeftSeconds (live w') = timeLeftSeconds (live w)
  ∧ activeRules (live w') = activeRules (live w)
  ∧ autoProgress (live w') = autoProgress (live w)
  ∧ useTimer (live w') = useTimer (live w)
  ∧ perspectiveMapping (refs w') = perspectiveMapping (refs w).
Proof.
  unfold nextTurn. cbv zeta. intros H.
  apply Rand_bind_Some in H as (swapped & ds1 & _ & H).
  apply Rand_bind_Some in H as (newRule & ds2 & _ & H).
  apply Rand_bind_Some in H as ([stim wg] & ds3 & Hgen & H).
  apply generateStimulus_inv in Hgen as (_ & _ & _ & _ & _ & ->).
  apply Rand_ret_Some in H as [<- _].
  assert (∀ w0, isPlaying (live (checkProgression r w0)) = isPlaying (live w0)
                ∧ timeLeftSeconds (live (checkProgression r w0)) = timeLeftSeconds (live w0)
                ∧ activeRules (live (checkProgression r w0)) = activeRules (live w0)
                ∧ autoProgress (live (checkProgression r w0)) = autoProgress (live w0)
                ∧ useTimer (live (checkProgression r w0)) = useTimer (live w0)
                ∧ perspectiveMapping (refs (checkProgression r w0))
                  = perspectiveMapping (refs w0)) as Hcp.
  { intros w0. unfold checkProgression.
    destruct (negb (autoProgress r) || _ || useTimer r); [done|].
    destruct (Qle_bool 80 _); [done|]. by destruct (Qltb _ 50 && _). }
  destruct (Hcp (checkMissedTarget isReset r w)) as (E1 & E2 & E3 & E4 & E5 & E6).
  assert (isPlaying (live (checkMissedTarget isReset r w)) = isPlaying (live w)
          ∧ timeLeftSeconds (live (checkMissedTarget isReset r w)) = timeLeftSeconds (live w)
          ∧ activeRules (live (checkMissedTarget isReset r w)) = activeRules (live w)
          ∧ autoProgress (live (checkMissedTarget isReset r w)) = autoProgress (live w)
          ∧ useTimer (live (checkMissedTarget isReset r w)) = useTimer (live w)
          ∧ perspectiveMapping (refs (checkMissedTarget isReset r w))
            = perspectiveMapping (refs w)) as (F1 & F2 & F3 & F4 & F5 & F6).
  { unfold checkMissedTarget. by destruct (negb isReset && _ && _). }
  rewrite <- F1, <- F2, <- F3, <- F4, <- F5, <- F6, <- E1, <- E2, <- E3, <- E4, <- E5, <- E6.
  destruct (useTimer r && _ && _); [unfold startTimer|]; cbn;
    try destruct (gameIntervalRef (refs (checkProgression r _))); cbn; done.
Qed.

(** The world right after a successful start. *)
Lemma startGame_started r now shuffles w ds w' shuffles' ds' :
  activeRules r ≠ [] →
  startGame r now shuffles w ds = Some ((w', shuffles'), ds') →
  ∃ stim,
    historyRef (refs w') = [stim]
    ∧ Stimulus.id stim = now
    ∧ currentStimulus (live w') = Some stim
    ∧ isPlaying (live w') = true
    ∧ score (live w') = 0
    ∧ scoreRef (refs w') = 0
    ∧ timeLeftSeconds (live w') = gameDurationSeconds r
    ∧ totalTurns (refs w') = 1
    ∧ blockTurnCount (refs w') = 1
    ∧ totalMistakes (refs w') = 0
    ∧ blockMistakes (refs w') = 0
    ∧ hasResponded (refs w') = false
    ∧ turnTimerRef (refs w') = Some INTERVAL_MS
    ∧ nBack (live w') = nBack (live w)
    ∧ storage w' = storage w.
Proof.
  intros Hrules H. unfold startGame in H.
  destruct (decide (length (activeRules r) = 0%nat)) as [Hlen|_].
  { destruct (activeRules r); [done | cbn in Hlen; lia]. }
  destruct (if perspectiveMode r then _ else _) as [[w0 sh0]|] eqn:Hscr; [|done].
  assert (live w0 = live w ∧ storage w0 = storage w) as [Hlive Hsto].
  { destruct (perspectiveMode r); [|by injection Hscr as <- _].
    unfold scramblePerspectiveRules in Hscr.
    apply bind_Some in Hscr as ([? ?] & _ & Hscr).
    apply bind_Some in Hscr as ([? ?] & _ & Hscr).
    apply bind_Some in Hscr as ([? ?] & _ & Hscr).
    apply bind_Some in Hscr as ([? ?] & _ & Hscr).
    by injection Hscr as <- _. }
  apply Rand_bind_Some in H as (w1 & ds1 & Hturn & H).
  apply Rand_ret_Some in H as [[= <- <-] _].
  pose proof (nextTurn_settings _ _ _ _ _ _ _ Hturn) as (Hp & Htl & _).
  apply nextTurn_inv in Hturn as (stim & Hh & Hc & Hid & _ & Hr & Ht & Hs & Hsr
                                   & Htm & Hbm & Htt & Hbt & Hn & Hst).
  match type of Hh with
  | context [checkProgression r (checkMissedTarget true r ?W)] =>
      assert (Hw : checkProgression r (checkMissedTarget true r W) = W)
        by (unfold checkMissedTarget, checkProgression; cbn;
            by rewrite orb_true_r)
  end.
  rewrite Hw in *. cbn in *. rewrite Hlive, Hsto in *.
  exists stim. split_and!; done.
Qed.

(** Every call of [nextTurn], whatever world it starts in, leaves the turn
    counters in step with the history it extended. *)
Lemma nextTurn_counts isReset r now w ds w' ds' :
  nextTurn isReset r now w ds = Some (w', ds') →
  let w0 := checkMissedTarget isReset r w in
  length (historyRef (refs w')) = S (length (historyRef (refs w)))
  ∧ totalTurns (refs w') = totalTurns (refs w) + 1
  ∧ score (live w') - scoreRef (refs w') = score (live w) - scoreRef (refs w)
  ∧ totalMistakes (refs w') = totalMistakes (refs w0)
  ∧ hasResponded (refs w') = false
  ∧ ((blockTurnCount (refs w') = 1 ∧ blockMistakes (refs w') = 0)
     ∨ (blockTurnCount (refs w') = blockTurnCount (refs w) + 1
        ∧ blockMistakes (refs w') = blockMistakes (refs w0))).
Proof.
  intros H w0. apply nextTurn_inv in H as (stim & Hh & _ & _ & _ & Hr & _ & Hs & Hsr
                                            & Htm & Hbm & Htt & Hbt & _ & _).
  fold w0 in Hh, Hs, Hsr, Htm, Hbm, Htt, Hbt.
  destruct (checkProgression_frame r w0) as (Fs & Fr & Fm & Ft & Fh & _).
  rewrite Hh, Hs, Hsr, Htm, Htt, Fs, Fr, Fm, Ft, Fh, length_app. cbn.
  assert (historyRef (refs w0) = historyRef (refs w)
          ∧ totalTurns (refs w0) = totalTurns (refs w)
          ∧ blockTurnCount (refs w0) = blockTurnCount (refs w)
          ∧ score (live w0) - scoreRef (refs w0) = score (live w) - scoreRef (refs w))
    as (-> & -> & Hb0 & ->).
  { subst w0. unfold checkMissedTarget.
    destruct (negb isReset && _ && _); cbn; split_and!; try done. lia. }
  split_and!; try done; try lia.
  rewrite Hbt, Hbm. unfold checkProgression.
  destruct (negb (autoProgress r) || _ || useTimer r); [right; by rewrite Hb0|].
  left. destruct (Qle_bool 80 _); [done|]. by destruct (Qltb _ 50 && _).
Qed.

Lemma endGame_same_play timedOut r shortDate now w :
  same_play w (endGame timedOut r shortDate now w).
Proof.
  unfold same_play, endGame.
  destruct (timedOut && negb _); [done|].
  destruct timedOut; cbn [andb]; [|done].
  destruct (autoProgress r); cbn [andb]; [|done].
  destruct (0 <? _); [|done].
  destruct (Qle_bool 80 _); [done|].
  by destruct ((1 <? nBack r) && _).
Qed.

Lemma timeoutEffect_same_play r shortDate now w :
  same_play w (timeoutEffect r shortDate now w).
Proof.
  unfold timeoutEffect.
  destruct (isPlaying r && useTimer r && _); [|done].
  destruct (gameIntervalRef (refs w)); [apply endGame_same_play | done].
Qed.

(** X1. Throughout a session the score kept in [scoreRef] (the one a
    timeout writes to the history) equals the score on display, and
    [totalTurns] is the number of stimuli shown, which is at least one. *)
Theorem session_score_and_turns_in_step w :
  session_reachable w →
  scoreRef (refs w) = score (live w)
  ∧ totalTurns (refs w) = Z.of_nat (length (historyRef (refs w)))
  ∧ 1 ≤ totalTurns (refs w).
Proof.
  induction 1 as [r now sh w ds w' sh' ds' Hrules Hstart
                 | r now w ds w' ds' Hw IH Hturn
                 | r now action w Hw IH
                 | r now side w Hw IH
                 | w Hw IH
                 | r shortDate now w Hw IH
                 | w Hw IH].
  - apply startGame_started in Hstart as (stim & -> & _ & _ & _ & -> & -> & _ & -> & _);
      done.
  - apply nextTurn_counts in Hturn as (Hlen & Htt & Hs & _). lia.
  - destruct (handleInput_effect r now action w) as [-> | (_ & _ & -> & -> & _ & Hs & _)];
      [done | lia].
  - destruct (handlePhysicalSide_as_input r now side w) as [-> | [action ->]]; [done|].
    destruct (handleInput_effect r now action w) as [-> | (_ & _ & -> & -> & _ & Hs & _)];
      [done | lia].
  - done.
  - destruct (timeoutEffect_same_play r shortDate now w) as (-> & -> & -> & -> & _).
    done.
  - done.
Qed.

Lemma turns_reachable n : ∀ r now w ds w' ds',
  session_reachable w →
  turns n r now w ds = Some (w', ds') →
  session_reachable w'.
Proof.
  induction n as [|n IH]; intros r now w ds w' ds' Hw H; cbn in H.
  - by apply Rand_ret_Some in H as [<- _].
  - apply Rand_bind_Some in H as (w1 & ds1 & Hturn & H).
    eapply IH; [|exact H]. by eapply session_turn.
Qed.

Lemma unattended_reachable n r w ds w' ds' :
  activeRules r ≠ [] →
  unattended n r w ds = Some (w', ds') →
  session_reachable w'.
Proof.
  intros Hrules H. unfold unattended in H.
  apply Rand_bind_Some in H as ([w0 sh] & ds0 & Hstart & H).
  eapply turns_reachable; [|exact H]. by eapply session_start.
Qed.

Lemma session_score_and_turns_in_step_witness :
  ∃ w' ds',
    unattended 30 afk_render afk_world afk_draws = Some (w', ds')
    ∧ scoreRef (refs w') = score (live w')
    ∧ totalTurns (refs w') = Z.of_nat (length (historyRef (refs w'))).
Proof.
  eexists _, _. split; [vm_compute; reflexivity|].
  refine (let H := session_score_and_turns_in_step _ _ in
          conj (proj1 H) (proj1 (proj2 H))).
  eapply (unattended_reachable 30 afk_render afk_world afk_draws); [done|].
  vm_compute. reflexivity.
Defined.

Lemma accuracy_of_le (p turns mistakes : Z) :
  0 < turns →
  (accuracy_of turns mistakes <= inject_Z p)%Q ↔ 100 * (turns - mistakes) ≤ p * turns.
Proof.
  intros Ht. unfold accuracy_of, Qle, Qdiv, Qmult, Qinv. cbn.
  destruct turns as [|t|t]; try lia. cbn. nia.
Qed.

(** X2. Throughout a session the mistake counters stay within the turn
    counters: at most one mistake is counted per stimulus, for the whole
    session and for the current block, so the accuracy that [endGame] and
    [checkProgression] compute lies between 0 and 100. *)
Theorem session_mistakes_within_turns w :
  session_reachable w →
  let pending := if hasResponded (refs w) then 0 else 1 in
  0 ≤ totalMistakes (refs w)
  ∧ totalMistakes (refs w) + pending ≤ totalTurns (refs w)
  ∧ 0 ≤ blockMistakes (refs w)
  ∧ blockMistakes (refs w) + pending ≤ blockTurnCount (refs w)
  ∧ (0 <= accuracy_of (totalTurns (refs w)) (totalMistakes (refs w)) <= 100)%Q
  ∧ (0 <= accuracy_of (blockTurnCount (refs w)) (blockMistakes (refs w)) <= 100)%Q.
Proof.
  intros Hw.
  assert (Hacc : ∀ t m, 0 ≤ m → m ≤ t → 0 < t → (0 <= accuracy_of t m <= 100)%Q).
  { intros t m H0 H1 H2. split.
    - apply (accuracy_of_ge 0); lia.
    - apply (accuracy_of_le 100); lia. }
  assert (Hinv :
    0 ≤ totalMistakes (refs w)
    ∧ totalMistakes (refs w) + (if hasResponded (refs w) then 0 else 1)
      ≤ totalTurns (refs w)
    ∧ 0 ≤ blockMistakes (refs w)
    ∧ blockMistakes (refs w) + (if hasResponded (refs w) then 0 else 1)
      ≤ blockTurnCount (refs w)
    ∧ 0 < blockTurnCount (refs w) ∧ 0 < totalTurns (refs w)).
  { clear Hacc.
    induction Hw as [r now sh w ds w' sh' ds' Hrules Hstart
                    | r now w ds w' ds' Hw IH Hturn
                    | r now action w Hw IH
                    | r now side w Hw IH
                    | w Hw IH
                    | r shortDate now w Hw IH
                    | w Hw IH].
    - apply startGame_started in Hstart
        as (stim & _ & _ & _ & _ & _ & _ & _ & -> & -> & -> & -> & -> & _);
        [lia | done].
    - destruct IH as (I1 & I2 & I3 & I4 & I5 & I6).
      apply nextTurn_counts in Hturn as (_ & -> & _ & -> & -> & Hblock).
      assert (totalMistakes (refs (checkMissedTarget false r w))
              + 1 ≤ totalTurns (refs w) + 1
              ∧ totalMistakes (refs w)
                ≤ totalMistakes (refs (checkMissedTarget false r w))
              ∧ blockMistakes (refs (checkMissedTarget false r w))
                + 1 ≤ blockTurnCount (refs w) + 1
              ∧ blockMistakes (refs w)
                ≤ blockMistakes (refs (checkMissedTarget false r w)))
        as (M1 & M2 & M3 & M4).
      { unfold checkMissedTarget.
        destruct (hasResponded (refs w)); [rewrite andb_false_r; lia|].
        destruct (negb false && _ && negb false); cbn; lia. }
      destruct Hblock as [[-> ->] | [-> ->]]; lia.
    - destruct (handleInput_effect r now action w)
        as [-> | (Hr & -> & _ & -> & -> & _ & [[-> ->] | [-> ->]])];
        [done | |]; rewrite Hr in IH; lia.
    - destruct (handlePhysicalSide_as_input r now side w) as [-> | [action ->]]; [done|].
      destruct (handleInput_effect r now action w)
        as [-> | (Hr & -> & _ & -> & -> & _ & [[-> ->] | [-> ->]])];
        [done | |]; rewrite Hr in IH; lia.
    - done.
    - destruct (timeoutEffect_same_play r shortDate now w)
        as (_ & _ & _ & -> & -> & -> & -> & ->). done.
    - done. }
  destruct Hinv as (I1 & I2 & I3 & I4 & I5 & I6).
  cbv zeta. split_and!; try done;
    apply Hacc; try done; destruct (hasResponded (refs w)); lia.
Qed.

Lemma session_mistakes_within_turns_witness :
  ∃ w' ds',
    unattended 30 afk_render afk_world afk_draws = Some (w', ds')
    ∧ totalMistakes (refs w') + 1 ≤ totalTurns (refs w').
Proof.
  eexists _, _. split; [vm_compute; reflexivity|].
  refine (proj1 (proj2 (session_mistakes_within_turns _ _))).
  eapply (unattended_reachable 30 afk_render afk_world afk_draws); [done|].
  vm_compute. reflexivity.
Defined.

(** ** Warm-up, countdown and stopping *)

(** The countdown interval after a turn: kept if installed, otherwise
    installed when the timer is on and the history has outgrown the n-back
    level. *)
Lemma nextTurn_interval isReset r now w ds w' ds' :
  nextTurn isReset r now w ds = Some (w', ds') →
  gameIntervalRef (refs w')
  = match gameIntervalRef (refs w) with
    | Some k => Some k
    | None =>
        if useTimer r && (nBack r <? Z.of_nat (S (length (historyRef (refs w)))))
        then Some 1000 else None
    end.
Proof.
  unfold nextTurn. cbv zeta. intros H.
  apply Rand_bind_Some in H as (swapped & ds1 & _ & H).
  apply Rand_bind_Some in H as (newRule & ds2 & _ & H).
  apply Rand_bind_Some in H as ([stim wg] & ds3 & Hgen & H).
  apply generateStimulus_inv in Hgen as (_ & _ & _ & _ & _ & ->).
  apply Rand_ret_Some in H as [<- _].
  set (w1 := checkProgression r (checkMissedTarget isReset r w)).
  assert (gameIntervalRef (refs w1) = gameIntervalRef (refs w)
          ∧ historyRef (refs w1) = historyRef (refs w)) as [Hi Hh].
  { subst w1. unfold checkProgression, checkMissedTarget.
    destruct (negb isReset && _ && _); cbn;
      (destruct (negb (autoProgress r) || _ || useTimer r); [done|]);
      (destruct (Qle_bool 80 _); [done|]); by destruct (Qltb _ 50 && _). }
  cbn [setCurrentStimulus set_historyRef set_lastStroopText setCurrentRule
       setIsSwapped on_live on_refs refs historyRef gameIntervalRef].
  rewrite Hi, Hh, length_app, Nat.add_1_r.
  destruct (gameIntervalRef (refs w)) as [k|] eqn:Hk.
  - rewrite bool_decide_true by eauto. rewrite andb_false_r. cbn. done.
  - rewrite bool_decide_false by (by intros [? ?]). rewrite andb_true_r.
    destruct (useTimer r && _); [|cbn; done].
    unfold startTimer. cbn. rewrite Hi. cbn. done.
Qed.

Lemma turns_warm_up n : ∀ r now w ds w' ds',
  turns n r now w ds = Some (w', ds') →
  Z.of_nat (length (historyRef (refs w))) + Z.of_nat n ≤ nBack r + 1 →
  score (live w') = score (live w)
  ∧ totalMistakes (refs w') = totalMistakes (refs w)
  ∧ length (historyRef (refs w')) = (length (historyRef (refs w)) + n)%nat.
Proof.
  induction n as [|n IH]; intros r now w ds w' ds' H Hlen; cbn in H.
  - apply Rand_ret_Some in H as [<- _]. split_and!; try done; lia.
  - apply Rand_bind_Some in H as (w1 & ds1 & Hturn & H).
    pose proof (nextTurn_counts _ _ _ _ _ _ _ Hturn) as (Hl & _ & _ & Hm & _).
    apply nextTurn_inv in Hturn as (_ & _ & _ & _ & _ & _ & _ & Hs & _).
    destruct (checkProgression_frame r (checkMissedTarget false r w)) as (Fs & _).
    rewrite checkMissedTarget_no_miss in Hm, Hs, Fs by (right; left; lia).
    apply IH in H as (-> & -> & ->); [|rewrite Hl; lia].
    rewrite Hs, Fs, Hm, Hl. split_and!; try done; lia.
Qed.

Lemma turns_interval n : ∀ r now w ds w' ds',
  turns n r now w ds = Some (w', ds') →
  match gameIntervalRef (refs w) with
  | Some k => gameIntervalRef (refs w') = Some k
  | None =>
      is_Some (gameIntervalRef (refs w'))
      ↔ useTimer r = true ∧ n ≠ 0%nat
        ∧ nBack r < Z.of_nat (length (historyRef (refs w))) + Z.of_nat n
  end.
Proof.
  induction n as [|n IH]; intros r now w ds w' ds' H; cbn in H.
  - apply Rand_ret_Some in H as [<- _].
    destruct (gameIntervalRef (refs w)); [done|].
    split; [by intros [? ?] | by intros (_ & ? & _)].
  - apply Rand_bind_Some in H as (w1 & ds1 & Hturn & H).
    pose proof (nextTurn_interval _ _ _ _ _ _ _ Hturn) as Hint.
    pose proof (nextTurn_counts _ _ _ _ _ _ _ Hturn) as (Hl & _).
    apply IH in H. rewrite Hint, Hl in H.
    destruct (gameIntervalRef (refs w)) as [k|]; [done|].
    destruct (useTimer r) eqn:Htimer; cbn [andb] in H.
    + destruct (nBack r <? _) eqn:Hlt.
      * apply Z.ltb_lt in Hlt. rewrite H. split; [|eauto].
        intros _. split_and!; [done | done | lia].
      * apply Z.ltb_ge in Hlt. rewrite H. split.
        -- intros (_ & ? & ?). split_and!; [done | done | lia].
        -- intros (_ & _ & ?). split_and!; [done | intros ->; lia | lia].
    + rewrite H. split; by intros (? & _).
Qed.

(** X3. The first trials of a session, up to and including the one that
    makes the history one longer than the n-back level, cannot be missed:
    until then a session that is left alone keeps score 0 and counts no
    mistake.  With the timer on, the countdown is installed exactly by the
    turn that brings the history above the n-back level, and not before. *)
Theorem warm_up_turns_are_free r now shuffles w ds w0 shuffles' ds0 n now' w' ds' :
  activeRules r ≠ [] →
  startGame r now shuffles w ds = Some ((w0, shuffles'), ds0) →
  turns n r now' w0 ds0 = Some (w', ds') →
  (Z.of_nat n ≤ nBack r →
     score (live w') = 0
     ∧ totalMistakes (refs w') = 0
     ∧ length (historyRef (refs w')) = S n)
  ∧ (1 ≤ nBack r →
     is_Some (gameIntervalRef (refs w'))
     ↔ useTimer r = true ∧ nBack r ≤ Z.of_nat n).
Proof.
  intros Hrules Hstart Hturns.
  pose proof Hstart as Hstart'.
  apply startGame_started in Hstart
    as (stim & Hh & _ & _ & _ & Hs & _ & _ & _ & _ & Hm & _); [|done].
  split.
  - intros Hn. apply turns_warm_up in Hturns as (-> & -> & ->);
      [|rewrite Hh; cbn; lia].
    rewrite Hh. done.
  - intros Hlevel.
    assert (Hnone : gameIntervalRef (refs w0) = None).
    { unfold startGame in Hstart'.
      destruct (decide (length (activeRules r) = 0%nat)) as [Hlen|_].
      { destruct (activeRules r); [done | cbn in Hlen; lia]. }
      destruct (if perspectiveMode r then _ else _) as [[wa sha]|]; [|done].
      apply Rand_bind_Some in Hstart' as (w1 & ds1 & Hturn & H).
      apply Rand_ret_Some in H as [[= <- <-] _].
      apply nextTurn_interval in Hturn. cbn in Hturn. rewrite Hturn.
      replace (nBack r <? Z.of_nat 1) with false
        by (symmetry; apply Z.ltb_ge; lia).
      by rewrite andb_false_r. }
    apply turns_interval in Hturns. rewrite Hnone, Hh in Hturns. cbn in Hturns.
    rewrite Hturns. split.
    + intros (? & ? & ?). split; [done | lia].
    + intros (? & ?). split_and!; [done | intros ->; lia | lia].
Qed.

Lemma warm_up_turns_are_free_witness :
  ∃ w0 sh ds0 w' ds',
    startGame afk_render 0 [] afk_world afk_draws = Some ((w0, sh), ds0)
    ∧ turns 2 afk_render INTERVAL_MS w0 ds0 = Some (w', ds')
    ∧ score (live w') = 0
    ∧ length (historyRef (refs w')) = 3%nat.
Proof.
  eexists _, _, _, _, _. split; [vm_compute; reflexivity|].
  split; [vm_compute; reflexivity|].
  refine (let H := proj1 (warm_up_turns_are_free afk_render 0 [] afk_world afk_draws
                            _ _ _ 2 INTERVAL_MS _ _ _ _ _) _ in
          conj (proj1 H) (proj2 (proj2 H)));
    [done | vm_compute; reflexivity | vm_compute; reflexivity
     | vm_compute; discriminate].
Defined.

(** X4. Starting with no active rule only flashes "Select Rules!": the
    session does not start, nothing is reset and no random number is used.
    Starting with at least one rule shows exactly one stimulus, marks the
    session as playing, zeroes score and mistake counters, counts the first
    turn, loads the countdown with the configured duration and arms the turn
    timer; the level and the stored data are untouched. *)
Theorem startGame_outcome r now shuffles w ds :
  (activeRules r = [] →
     startGame r now shuffles w ds
     = Some ((flashFeedback "Select Rules!" "text-red-500" w, shuffles), ds)
     ∧ isPlaying (live (flashFeedback "Select Rules!" "text-red-500" w))
       = isPlaying (live w)
     ∧ refs (flashFeedback "Select Rules!" "text-red-500" w) = refs w
     ∧ storage (flashFeedback "Select Rules!" "text-red-500" w) = storage w)
  ∧ (activeRules r ≠ [] →
     ∀ w' shuffles' ds',
       startGame r now shuffles w ds = Some ((w', shuffles'), ds') →
       ∃ stim,
         historyRef (refs w') = [stim]
         ∧ currentStimulus (live w') = Some stim
         ∧ isPlaying (live w') = true
         ∧ score (live w') = 0
         ∧ scoreRef (refs w') = 0
         ∧ totalTurns (refs w') = 1
         ∧ totalMistakes (refs w') = 0
         ∧ blockTurnCount (refs w') = 1
         ∧ blockMistakes (refs w') = 0
         ∧ hasResponded (refs w') = false
         ∧ timeLeftSeconds (live w') = gameDurationSeconds r
         ∧ turnTimerRef (refs w') = Some INTERVAL_MS
         ∧ nBack (live w') = nBack (live w)
         ∧ storage w' = storage w).
Proof.
  split.
  - intros Hnil. unfold startGame. rewrite Hnil. cbn. done.
  - intros Hrules w' shuffles' ds' H.
    apply startGame_started in H
      as (stim & ? & ? & ? & ? & ? & ? & ? & ? & ? & ? & ? & ? & ? & ? & ?);
      [|done].
    exists stim. split_and!; done.
Qed.

Lemma startGame_outcome_witness :
  ∃ w' sh ds',
    startGame afk_render 0 [] afk_world afk_draws = Some ((w', sh), ds')
    ∧ totalTurns (refs w') = 1
    ∧ isPlaying (live w') = true.
Proof.
  eexists _, _, _. split; [vm_compute; reflexivity|].
  destruct (proj2 (startGame_outcome afk_render 0 [] afk_world afk_draws)
              ltac:(done) _ _ _ ltac:(vm_compute; reflexivity))
    as (stim & _ & _ & Hp & _ & _ & Ht & _).
  split; [exact Ht | exact Hp].
Defined.

(** X5. A stop ends play without touching score, level, counters, history
    or storage, and cancels both timers.  After it, neither the timeout
    effect nor [endGame(true)] does anything, from whatever render they are
    called: a countdown that had already reached zero cannot record a
    stopped session.  Stopping twice is the same as stopping once. *)
Theorem stopGame_cancels w :
  isPlaying (live (stopGame w)) = false
  ∧ turnTimerRef (refs (stopGame w)) = None
  ∧ gameIntervalRef (refs (stopGame w)) = None
  ∧ same_play w (stopGame w)
  ∧ nBack (live (stopGame w)) = nBack (live w)
  ∧ storage (stopGame w) = storage w
  ∧ (∀ r shortDate now,
       timeoutEffect r shortDate now (stopGame w) = stopGame w
       ∧ endGame true r shortDate now (stopGame w) = stopGame w)
  ∧ stopGame (stopGame w) = stopGame w.
Proof.
  split_and!; try done.
  intros r shortDate now. split.
  - unfold timeoutEffect. by destruct (isPlaying r && useTimer r && _).
  - done.
Qed.

(** X6. When the countdown ends a session ([endGame(true)] with the
    interval installed), play stops and both timers are cleared.  With
    automatic progression on and at least one turn played, the live level
    goes up by one when at least 80% of the turns were free of mistakes,
    down by one when fewer than 50% were and the level of the render is
    above 1, and stays otherwise; with automatic progression off it stays.
    A call that finds no interval installed changes nothing. *)
Theorem endGame_adjusts_level r shortDate now w :
  let turns := totalTurns (refs w) in
  let good := totalTurns (refs w) - totalMistakes (refs w) in
  let w' := endGame true r shortDate now w in
  (gameIntervalRef (refs w) = None → w' = w)
  ∧ (is_Some (gameIntervalRef (refs w)) →
     isPlaying (live w') = false
     ∧ turnTimerRef (refs w') = None
     ∧ gameIntervalRef (refs w') = None
     ∧ (autoProgress r = false → nBack (live w') = nBack (live w))
     ∧ (turns ≤ 0 → nBack (live w') = nBack (live w))
     ∧ (autoProgress r = true → 0 < turns →
        (80 * turns ≤ 100 * good → nBack (live w') = nBack (live w) + 1)
        ∧ (100 * good < 50 * turns → 1 < nBack r →
           nBack (live w') = nBack (live w) - 1)
        ∧ (100 * good < 80 * turns → (50 * turns ≤ 100 * good ∨ nBack r ≤ 1) →
           nBack (live w') = nBack (live w)))).
Proof.
  intros turns good w'. subst turns good. split.
  - intros Hnone. subst w'. unfold endGame. by rewrite Hnone.
  - intros [k Hk].
    destruct (endGame_timed_out r shortDate now w k Hk) as (_ & Hint & Hplay & Hlevel).
    fold w' in Hint, Hplay, Hlevel.
    split; [done|]. split.
    { subst w'. unfold endGame. rewrite Hk.
      rewrite bool_decide_true by eauto. cbn [negb andb].
      cbn [setIsPlaying set_turnTimerRef set_gameIntervalRef on_live on_refs refs
           totalTurns totalMistakes live].
      destruct (autoProgress r); cbn [andb]; [|done].
      destruct (0 <? _); [|done].
      destruct (Qle_bool 80 _); [done|].
      by destruct ((1 <? nBack r) && _). }
    split; [done|]. split; [by intros Hauto; rewrite Hlevel, Hauto|].
    split.
    { intros Hle. apply Z.ltb_ge in Hle. rewrite Hlevel, Hle.
      by rewrite andb_false_r. }
    intros Hauto Hpos. rewrite Hlevel, Hauto. clear Hlevel. cbn [andb].
    pose proof Hpos as Hpos'. apply Z.ltb_lt in Hpos'. rewrite Hpos'.
    pose proof (accuracy_of_ge 80 _ (totalMistakes (refs w)) Hpos) as Hge.
    pose proof (accuracy_of_lt 50 _ (totalMistakes (refs w)) Hpos) as Hlt.
    change (inject_Z 80) with 80%Q in Hge. change (inject_Z 50) with 50%Q in Hlt.
    destruct (Qle_bool 80 (accuracy_of _ _)) eqn:Hup.
    + apply Qle_bool_iff, Hge in Hup. split_and!; [done | lia | lia].
    + assert (¬ 80 * totalTurns (refs w)
                ≤ 100 * (totalTurns (refs w) - totalMistakes (refs w))) as Hnup.
      { intros H. apply Hge, Qle_bool_iff in H. congruence. }
      destruct ((1 <? nBack r) && Qltb _ 50) eqn:Hdown.
      * apply andb_true_iff in Hdown as [Hn Hlow].
        apply Z.ltb_lt in Hn. apply Qltb_lt, Hlt in Hlow.
        split_and!; [lia | done | lia].
      * split_and!; [lia | | done]. intros Hlow Hn. exfalso.
        apply Hlt, Qltb_lt in Hlow. apply Z.ltb_lt in Hn.
        rewrite Hlow, Hn in Hdown. done.
Qed.

Lemma endGame_adjusts_level_witness :
  nBack (live (endGame true
    (sample_render false symbolic view true true 0 3 Attribute.color)
    "11/2 9:05" 1700000000000
    (sample_world (sample_render false symbolic view true true 0 3 Attribute.color)
       [] (Some 1000) 0 0 10 6 false))) = 2.
Proof.
  destruct (endGame_adjusts_level
              (sample_render false symbolic view true true 0 3 Attribute.color)
              "11/2 9:05" 1700000000000
              (sample_world
                 (sample_render false symbolic view true true 0 3 Attribute.color)
                 [] (Some 1000) 0 0 10 6 false)) as [_ H].
  destruct H as (_ & _ & _ & _ & _ & H); [vm_compute; eauto|].
  destruct H as (_ & Hdown & _); [reflexivity | reflexivity |].
  apply Hdown; reflexivity.
Defined.

(** ** What is judged *)

Lemma Stimulus_get_inj rule (s s' : Stimulus.t) :
  Stimulus.get s rule = Stimulus.get s' rule ↔ same_attribute rule s s'.
Proof.
  destruct rule; cbn.
  - destruct (Stimulus.color s), (Stimulus.color s'); by split.
  - destruct (Stimulus.shape s), (Stimulus.shape s'); by split.
  - destruct (Stimulus.size s), (Stimulus.size s'); by split.
  - destruct (Stimulus.position s), (Stimulus.position s'); by split.
Qed.

Lemma Stimulus_get_value rule (s : Stimulus.t) :
  Stimulus.get s rule ∈ attribute_values rule.
Proof.
  destruct rule; cbn.
  - destruct (Stimulus.color s); set_solver.
  - destruct (Stimulus.shape s); set_solver.
  - destruct (Stimulus.size s); set_solver.
  - destruct (Stimulus.position s); set_solver.
Qed.

(** X7. With perspective off, a response is scored on the raw attribute
    named by the current rule: "match" earns the points exactly when the
    current stimulus and the one n-back positions earlier have the same
    value of that attribute and costs 5 otherwise, and "non-match" the other
    way round. *)
Theorem plain_response_judges_raw_attribute r now action w currentStim targetStim :
  perspectiveMode r = false →
  isPlaying r = true →
  hasResponded (refs w) = false →
  0 ≤ nBack r < Z.of_nat (length (historyRef (refs w))) →
  historyRef (refs w) !! Z.to_nat (Z.of_nat (length (historyRef (refs w))) - 1)
    = Some currentStim →
  historyRef (refs w)
    !! Z.to_nat (Z.of_nat (length (historyRef (refs w))) - 1 - nBack r)
    = Some targetStim →
  let points := 10 + nBack r * 5 + speedBonus (now - Stimulus.id currentStim) in
  let same := same_attribute (currentRule r) currentStim targetStim in
  let gain := score (live (handleInput r now action w)) - score (live w) in
  match action with
  | a_match => (same → gain = points) ∧ (¬ same → gain = -5)
  | non_match => (same → gain = -5) ∧ (¬ same → gain = points)
  end.
Proof.
  intros Hoff Hplay Hresp Hn Hcur Htgt points same gain.
  destruct (handleInput_scored r now action w _ _ Hplay Hresp Hn Hcur Htgt)
    as (_ & _ & _ & _ & _ & _ & _ & Hscore).
  unfold getTransformedValue in Hscore. rewrite Hoff in Hscore. cbn [negb] in Hscore.
  fold points in Hscore.
  assert (Hdec : bool_decide
            (Some (Stimulus.get currentStim (currentRule r))
             = Some (Stimulus.get targetStim (currentRule r))) = true ↔ same).
  { rewrite bool_decide_eq_true. unfold same. rewrite <- Stimulus_get_inj.
    split; [by intros [= ->] | by intros ->]. }
  destruct (bool_decide _) eqn:Hb.
  - assert same as Hsame by by apply Hdec.
    destruct action; cbn in Hscore; destruct Hscore as (Hs & _);
      (split; [intros _; subst gain; lia | done]).
  - assert (¬ same) as Hsame by (intros H; apply Hdec in H; done).
    destruct action; cbn in Hscore; destruct Hscore as (Hs & _);
      (split; [done | intros _; subst gain; lia]).
Qed.

Lemma plain_response_judges_raw_attribute_witness :
  score (live (handleInput plain_render 1400 non_match two_reds))
  - score (live two_reds) = -5.
Proof.
  refine (proj1 (plain_response_judges_raw_attribute plain_render 1400 non_match
                   two_reds
                   (sample_stim red green PositionType.center 1000 me)
                   (sample_stim red blue PositionType.center 0 me)
                   eq_refl eq_refl eq_refl _ eq_refl eq_refl) eq_refl).
  vm_compute. split; [discriminate | reflexivity].
Defined.

(** The tables stored by [scramblePerspectiveRules], one per attribute. *)
Lemma scramblePerspectiveRules_tables shuffles w w' shuffles' :
  sorts_permute shuffles →
  scramblePerspectiveRules shuffles w = Some (w', shuffles') →
  (∀ rule, ∃ map,
     perspectiveMapping (refs w') !! Attribute_str rule = Some map
     ∧ derangement_on (attribute_values rule) map)
  ∧ live w' = live w ∧ storage w' = storage w
  ∧ sorts_permute shuffles'.
Proof.
  intros Hperm H. unfold scramblePerspectiveRules in H.
  apply bind_Some in H as ([mcolor sh1] & H1 & H).
  apply bind_Some in H as ([mshape sh2] & H2 & H).
  apply bind_Some in H as ([msize sh3] & H3 & H).
  apply bind_Some in H as ([mposition sh4] & H4 & H).
  injection H as <- <-.
  apply generateCyclicMapping_derangement in H1 as [D1 P1]; [|solve_NoDup|done].
  apply generateCyclicMapping_derangement in H2 as [D2 P2]; [|solve_NoDup|done].
  apply generateCyclicMapping_derangement in H3 as [D3 P3]; [|solve_NoDup|done].
  apply generateCyclicMapping_derangement in H4 as [D4 P4]; [|solve_NoDup|done].
  split; [|done].
  intros [| | |]; eexists; (split; [cbn; by simplify_map_eq | done]).
Qed.

(** X8. Symbolic perspective with the tables of a session start.  For a
    stimulus whose observer is [opposite] the judged value is defined, is a
    value of the attribute's enumeration and is never the raw value.  Two
    stimuli with the same observer are judged equal exactly when their raw
    values are equal; a stimulus seen by [me] and one seen by [opposite]
    that have the same raw value are judged different. *)
Theorem symbolic_decoding shuffles w w' shuffles' r rule (s s' : Stimulus.t) :
  sorts_permute shuffles →
  scramblePerspectiveRules shuffles w = Some (w', shuffles') →
  perspectiveMode r = true →
  perspectiveType r = symbolic →
  let judged := getTransformedValue r (perspectiveMapping (refs w')) in
  (Stimulus.observerPos s = opposite →
     ∃ v, judged s rule = Some v
          ∧ v ∈ attribute_values rule
          ∧ v ≠ Stimulus.get s rule)
  ∧ (Stimulus.observerPos s = Stimulus.observerPos s' →
     judged s rule = judged s' rule ↔ same_attribute rule s s')
  ∧ (Stimulus.observerPos s = me → Stimulus.observerPos s' = opposite →
     same_attribute rule s s' → judged s rule ≠ judged s' rule).
Proof.
  intros Hperm Hscr Hmode Htype judged.
  destruct (scramblePerspectiveRules_tables _ _ _ _ Hperm Hscr) as (Htab & _).
  destruct (Htab rule) as (map & Hmap & Hder & Hinj & _).
  assert (Hopp : ∀ x : Stimulus.t, Stimulus.observerPos x = opposite →
            judged x rule = map !! Stimulus.get x rule).
  { intros x Hx. unfold judged, getTransformedValue.
    rewrite Hmode, Htype, Hx, Hmap. done. }
  assert (Hme : ∀ x : Stimulus.t, Stimulus.observerPos x = me →
            judged x rule = Some (Stimulus.get x rule)).
  { intros x Hx. unfold judged, getTransformedValue.
    rewrite Hmode, Htype, Hx. done. }
  split; [|split].
  - intros Hs. rewrite (Hopp s Hs).
    destruct (Hder _ (Stimulus_get_value rule s)) as (v & ? & ? & ?). eauto.
  - intros Hobs. rewrite <- Stimulus_get_inj.
    destruct (Stimulus.observerPos s) eqn:Hs.
    + rewrite (Hme s Hs), (Hme s') by done. split; [by intros [= ->] | by intros ->].
    + rewrite (Hopp s Hs), (Hopp s') by done. split; [|by intros ->].
      destruct (Hder _ (Stimulus_get_value rule s)) as (v & Hv & _).
      rewrite Hv. intros Hv'. symmetry in Hv'. by eapply Hinj.
  - intros Hs Hs' Hsame. apply Stimulus_get_inj in Hsame.
    rewrite (Hme s Hs), (Hopp s' Hs'), <- Hsame.
    destruct (Hder _ (Stimulus_get_value rule s)) as (v & -> & _ & Hne).
    intros [= Heq]. by apply Hne.
Qed.

Lemma symbolic_decoding_witness :
  ∃ w' shuffles',
    scramblePerspectiveRules sample_shuffles two_reds = Some (w', shuffles')
    ∧ getTransformedValue
        (sample_render true symbolic view true true 60 1 Attribute.color)
        (perspectiveMapping (refs w'))
        (sample_stim red blue PositionType.center 0 me) Attribute.color
      ≠ getTransformedValue
          (sample_render true symbolic view true true 60 1 Attribute.color)
          (perspectiveMapping (refs w'))
          (sample_stim red green PositionType.left 9 opposite) Attribute.color.
Proof.
  eexists _, _. split; [vm_compute; reflexivity|].
  refine (proj2 (proj2 (symbolic_decoding sample_shuffles two_reds _ _
                          (sample_render true symbolic view true true 60 1
                             Attribute.color)
                          Attribute.color
                          (sample_stim red blue PositionType.center 0 me)
                          (sample_stim red green PositionType.left 9 opposite)
                          sample_shuffles_permute
                          _ eq_refl eq_refl)) eq_refl eq_refl eq_refl).
  vm_compute. reflexivity.
Defined.

Lemma derangement_of_three (a b c : string) map v :
  a ≠ b → a ≠ c → b ≠ c →
  derangement_on [a; b; c] map →
  v ∈ [a; b; c] →
  ∃ v1 v2,
    map !! v = Some v1 ∧ map !! v1 = Some v2 ∧ map !! v2 = Some v
    ∧ v1 ≠ v ∧ v2 ≠ v ∧ v2 ≠ v1.
Proof.
  intros Hab Hac Hbc (Hder & Hinj & _) Hv.
  destruct (Hder a) as (fa & Ha & Hina & Hnea); [rewrite !elem_of_cons; auto|].
  destruct (Hder b) as (fb & Hb & Hinb & Hneb); [rewrite !elem_of_cons; auto|].
  destruct (Hder c) as (fc & Hc & Hinc & Hnec); [rewrite !elem_of_cons; auto|].
  assert (fa ≠ fb) by (intros ->; by apply Hab, (Hinj _ _ _ Ha Hb)).
  assert (fa ≠ fc) by (intros ->; by apply Hac, (Hinj _ _ _ Ha Hc)).
  assert (fb ≠ fc) by (intros ->; by apply Hbc, (Hinj _ _ _ Hb Hc)).
  rewrite !elem_of_cons, elem_of_nil in Hina, Hinb, Hinc, Hv.
  destruct Hina as [-> | [-> | [-> | []]]]; try done;
    destruct Hinb as [-> | [-> | [-> | []]]]; try done;
    destruct Hinc as [-> | [-> | [-> | []]]]; try done;
    destruct Hv as [-> | [-> | [-> | []]]];
    eexists _, _; (split_and!; [eassumption | eassumption | eassumption | ..]);
    by first [done | apply not_eq_sym].
Qed.

(** X9. Each table of a session start moves its three values in a cycle:
    a value, its image and the image of its image are three different
    values, and the third is sent back to the first. *)
Theorem relabeling_tables_are_cycles shuffles w w' shuffles' rule v :
  sorts_permute shuffles →
  scramblePerspectiveRules shuffles w = Some (w', shuffles') →
  v ∈ attribute_values rule →
  ∃ map v1 v2,
    perspectiveMapping (refs w') !! Attribute_str rule = Some map
    ∧ map !! v = Some v1 ∧ map !! v1 = Some v2 ∧ map !! v2 = Some v
    ∧ v1 ≠ v ∧ v2 ≠ v ∧ v2 ≠ v1.
Proof.
  intros Hperm Hscr Hv.
  destruct (scramblePerspectiveRules_tables _ _ _ _ Hperm Hscr) as (Htab & _).
  destruct (Htab rule) as (map & Hmap & Hder).
  exists map.
  destruct rule; cbn in Hder, Hv;
    (eapply derangement_of_three in Hder as (v1 & v2 & ?); [|done..|exact Hv]);
    exists v1, v2; by split.
Qed.

Lemma relabeling_tables_are_cycles_witness :
  ∃ w' shuffles' map,
    scramblePerspectiveRules sample_shuffles two_reds = Some (w', shuffles')
    ∧ perspectiveMapping (refs w') !! "color" = Some map
    ∧ ∃ v1 v2, map !! "red" = Some v1 ∧ map !! v1 = Some v2
               ∧ map !! v2 = Some "red".
Proof.
  destruct (scramblePerspectiveRules sample_shuffles two_reds)
    as [[w' shuffles']|] eqn:H; [|by vm_compute in H].
  destruct (relabeling_tables_are_cycles sample_shuffles two_reds w' shuffles'
              Attribute.color "red" sample_shuffles_permute H)
    as (map & v1 & v2 & ? & ? & ? & ? & _); [cbn; rewrite !elem_of_cons; auto|].
  exists w', shuffles', map. split; [done|]. split; [done|]. by exists v1, v2.
Defined.

(** X10. Spatial perspective, object strategy, rule [color]: two stimuli
    are judged equal exactly when their front and back colours are the same
    two colours, in either order.  Different pairs never share a key. *)
Theorem object_color_key_identifies_pair r pm (s s' : Stimulus.t) :
  perspectiveMode r = true →
  perspectiveType r = spatial →
  spatialMatchMode r = object →
  getTransformedValue r pm s Attribute.color
  = getTransformedValue r pm s' Attribute.color
  ↔ (Stimulus.color s = Stimulus.color s'
     ∧ Stimulus.backColor s = Stimulus.backColor s')
    ∨ (Stimulus.color s = Stimulus.backColor s'
       ∧ Stimulus.backColor s = Stimulus.color s').
Proof.
  intros Hmode Htype Hobj. unfold getTransformedValue.
  rewrite Hmode, Htype, Hobj. cbn -[Array_sort].
  destruct (Stimulus.color s), (Stimulus.backColor s),
    (Stimulus.color s'), (Stimulus.backColor s');
    vm_compute; (split; [try discriminate; intros _; auto | try reflexivity]);
    intros [[? ?] | [? ?]]; discriminate.
Qed.

Lemma object_color_key_identifies_pair_witness :
  getTransformedValue
    (sample_render true spatial object true true 60 1 Attribute.color) ∅
    (sample_stim red blue PositionType.center 0 me) Attribute.color
  ≠ getTransformedValue
      (sample_render true spatial object true true 60 1 Attribute.color) ∅
      (sample_stim red green PositionType.center 7 me) Attribute.color.
Proof.
  intros H.
  apply (object_color_key_identifies_pair
           (sample_render true spatial object true true 60 1 Attribute.color) ∅
           (sample_stim red blue PositionType.center 0 me)
           (sample_stim red green PositionType.center 7 me)
           eq_refl eq_refl eq_refl) in H.
  destruct H as [[_ H] | [H _]]; discriminate H.
Defined.

(** X11. Spatial perspective, view strategy.  For rule [position], two
    stimuli with the same observer are judged equal exactly when they are at
    the same position, and two stimuli with different observers exactly when
    one position is the mirror image of the other.  For rule [color], two
    stimuli are judged equal exactly when the faces their observers look at
    have the same colour.  For [shape] and [size] the raw values are
    compared, whatever the strategy. *)
Theorem view_strategy_compares_what_is_seen r pm (s s' : Stimulus.t) :
  perspectiveMode r = true →
  perspectiveType r = spatial →
  let judged := getTransformedValue r pm in
  (spatialMatchMode r = view →
     (Stimulus.observerPos s = Stimulus.observerPos s' →
        judged s Attribute.position = judged s' Attribute.position
        ↔ Stimulus.position s = Stimulus.position s')
     ∧ (Stimulus.observerPos s ≠ Stimulus.observerPos s' →
        judged s Attribute.position = judged s' Attribute.position
        ↔ Stimulus.position s = mirrored (Stimulus.position s'))
     ∧ (judged s Attribute.color = judged s' Attribute.color
        ↔ facing_color s = facing_color s'))
  ∧ (judged s Attribute.shape = judged s' Attribute.shape
     ↔ Stimulus.shape s = Stimulus.shape s')
  ∧ (judged s Attribute.size = judged s' Attribute.size
     ↔ Stimulus.size s = Stimulus.size s').
Proof.
  intros Hmode Htype judged. unfold judged, getTransformedValue, facing_color.
  rewrite Hmode, Htype. cbn.
  split; [intros ->; cbn; split_and!|split].
  - intros Hobs. rewrite <- Hobs.
    destruct (Stimulus.observerPos s), (Stimulus.position s),
      (Stimulus.position s'); cbn; by split.
  - intros Hobs.
    destruct (Stimulus.observerPos s), (Stimulus.observerPos s'); try done;
      destruct (Stimulus.position s), (Stimulus.position s'); cbn; by split.
  - destruct (Stimulus.observerPos s), (Stimulus.observerPos s'),
      (Stimulus.color s), (Stimulus.backColor s),
      (Stimulus.color s'), (Stimulus.backColor s');
      vm_compute; by split.
  - destruct (Stimulus.shape s), (Stimulus.shape s'); by split.
  - destruct (Stimulus.size s), (Stimulus.size s'); by split.
Qed.

Lemma view_strategy_compares_what_is_seen_witness :
  getTransformedValue
    (sample_render true spatial view true true 60 1 Attribute.position) ∅
    (sample_stim red blue PositionType.left 0 me) Attribute.position
  = getTransformedValue
      (sample_render true spatial view true true 60 1 Attribute.position) ∅
      (sample_stim green blue PositionType.right 7 opposite) Attribute.position.
Proof.
  apply (proj1 (proj2 (proj1 (view_strategy_compares_what_is_seen
                  (sample_render true spatial view true true 60 1
                     Attribute.position) ∅
                  (sample_stim red blue PositionType.left 0 me)
                  (sample_stim green blue PositionType.right 7 opposite)
                  eq_refl eq_refl) eq_refl))); done.
Defined.

(** ** What the generator lets vary *)

Lemma random_element_In {A} (xs : list A) ds x ds' :
  random_element xs ds = Some (x, ds') → x ∈ xs.
Proof.
  unfold random_element. intros H.
  apply Rand_bind_Some in H as (u & ds1 & _ & H).
  unfold Rand_index in H.
  destruct (xs !! _) as [y|] eqn:Hy; [|done].
  injection H as <- _. by eapply list_elem_of_lookup_2.
Qed.

(** X12. Which attributes of a generated stimulus vary.  Under the spatial
    perspective the shape is a cube, except in the cutout variant where it
    is a cube or a sphere; the list of active rules and the distractor
    setting play no part.  Outside the spatial perspective the shape is a
    cube unless [shape] is an active rule or distractors are on.  The size
    is medium and the position is the centre unless the rule of that name
    is active or distractors are on.  The word printed on the stimulus is
    one of [STROOP_WORDS] and is remembered as the last word shown. *)
Theorem generated_stimulus_fixed_attributes r now w ds stim w' ds' :
  generateStimulus r now w ds = Some ((stim, w'), ds') →
  (is_spatial r = true →
     (spatialType r ≠ cutout → Stimulus.shape stim = cube)
     ∧ (spatialType r = cutout → Stimulus.shape stim ∈ [cube; sphere]))
  ∧ (is_spatial r = false → distractorsEnabled r = false →
     Attribute.shape ∉ activeRules r → Stimulus.shape stim = cube)
  ∧ (distractorsEnabled r = false →
     (Attribute.size ∉ activeRules r → Stimulus.size stim = medium)
     ∧ (Attribute.position ∉ activeRules r →
        Stimulus.position stim = PositionType.center))
  ∧ Stimulus.stroopText stim ∈ STROOP_WORDS
  ∧ lastStroopText (refs w') = Stimulus.stroopText stim.
Proof.
  unfold generateStimulus. intros H.
  apply Rand_bind_Some in H as (color & ds1 & _ & H).
  apply Rand_bind_Some in H as (backColor0 & ds2 & _ & H).
  apply Rand_bind_Some in H as (backColor & ds3 & _ & H).
  apply Rand_bind_Some in H as (netColors0 & ds4 & _ & H).
  cbv zeta in H.
  apply Rand_bind_Some in H as (shape0 & ds5 & Hshape0 & H).
  apply Rand_bind_Some in H as (shape & ds6 & Hshape & H).
  apply Rand_bind_Some in H as (size & ds7 & Hsize & H).
  apply Rand_bind_Some in H as (position & ds8 & Hpos & H).
  apply Rand_bind_Some in H as (stroopText0 & ds9 & Hword0 & H).
  apply Rand_bind_Some in H as (stroopText & ds10 & Hword & H).
  apply Rand_bind_Some in H as (stroopInk & ds11 & _ & H).
  apply Rand_bind_Some in H as (u & ds12 & _ & H).
  apply Rand_ret_Some in H as [[= <- <-] _]. cbn.
  unfold includes in *.
  split_and!.
  - intros Hsp. rewrite Hsp in Hshape. cbn in Hshape. split.
    + intros Hcut. rewrite (bool_decide_eq_false_2 _ Hcut) in Hshape.
      by apply Rand_ret_Some in Hshape as [<- _].
    + intros Hcut. rewrite (bool_decide_eq_true_2 _ Hcut) in Hshape.
      cbn in Hshape.
      apply Rand_bind_Some in Hshape as (u' & ds0 & _ & Hshape).
      apply Rand_ret_Some in Hshape as [<- _].
      rewrite !elem_of_cons. destruct (Qltb _ _); auto.
  - intros Hsp Hdis Hrule. rewrite Hsp in Hshape. cbn in Hshape.
    apply Rand_ret_Some in Hshape as [<- _].
    rewrite Hdis, (bool_decide_eq_false_2 _ Hrule) in Hshape0.
    by apply Rand_ret_Some in Hshape0 as [<- _].
  - intros Hdis. rewrite Hdis in Hsize, Hpos. split; intros Hrule.
    + rewrite (bool_decide_eq_false_2 _ Hrule) in Hsize.
      by apply Rand_ret_Some in Hsize as [<- _].
    + rewrite (bool_decide_eq_false_2 _ Hrule) in Hpos.
      by apply Rand_ret_Some in Hpos as [<- _].
  - destruct (decide (stroopText0 = _)).
    + by eapply random_element_In.
    + apply Rand_ret_Some in Hword as [<- _]. by eapply random_element_In.
  - done.
Qed.

Lemma generated_stimulus_fixed_attributes_witness :
  ∃ stim w' ds',
    generateStimulus
      (sample_render true spatial view false false 60 1 Attribute.color)
      1000 two_reds sample_draws
    = Some ((stim, w'), ds')
    ∧ Stimulus.shape stim = cube
    ∧ Stimulus.size stim = medium
    ∧ Stimulus.position stim = PositionType.center
    ∧ lastStroopText (refs w') = Stimulus.stroopText stim.
Proof.
  eexists _, _, _. split; [vm_compute; reflexivity|].
  destruct (generated_stimulus_fixed_attributes
              (sample_render true spatial view false false 60 1 Attribute.color)
              1000 two_reds sample_draws _ _ _ eq_refl)
    as (Hspatial & _ & Hfixed & _ & Hword).
  destruct (Hspatial eq_refl) as [Hcube _].
  destruct (Hfixed eq_refl) as [Hsize Hpos].
  split_and!.
  - by apply Hcube.
  - apply Hsize. intros Hin. apply list_elem_of_singleton in Hin.
    discriminate Hin.
  - apply Hpos. intros Hin. apply list_elem_of_singleton in Hin.
    discriminate Hin.
  - exact Hword.
Defined.

(** ** Block progression in counts *)

(** X13. The accuracy thresholds of [checkProgression] as counts.  With
    automatic progression on and the timer off, a block of at least
    [BLOCK_SIZE] turns raises the live level by one when at most a fifth of
    its turns were mistakes, lowers it by one when more than half of them
    were and the level of the render is above 1, and leaves it alone in
    between; the block counters restart from zero in all three cases. *)
Theorem block_progression_in_counts r w :
  autoProgress r = true → useTimer r = false →
  BLOCK_SIZE ≤ blockTurnCount (refs w) →
  let turns := blockTurnCount (refs w) in
  let mistakes := blockMistakes (refs w) in
  let w' := checkProgression r w in
  blockTurnCount (refs w') = 0
  ∧ blockMistakes (refs w') = 0
  ∧ nBack (live w')
    = (if decide (5 * mistakes ≤ turns) then nBack (live w) + 1
       else if decide (turns < 2 * mistakes ∧ 1 < nBack r)
            then nBack (live w) - 1
            else nBack (live w)).
Proof.
  intros Hauto Htimer Hblock turns mistakes w'.
  destruct (checkProgression_block r w) as [Hrun _].
  destruct (Hrun Hauto Htimer Hblock) as (Ht & Hm & Hup & Hdown & Hkeep).
  fold turns mistakes in Hup, Hdown, Hkeep. fold w' in Ht, Hm, Hup, Hdown, Hkeep.
  assert (0 < turns) as Hpos by (unfold BLOCK_SIZE in Hblock; lia).
  pose proof (accuracy_of_ge 80 turns mistakes Hpos) as Hge.
  pose proof (accuracy_of_lt 50 turns mistakes Hpos) as Hlt.
  change (inject_Z 80) with 80%Q in Hge. change (inject_Z 50) with 50%Q in Hlt.
  split; [done|]. split; [done|].
  destruct (decide (5 * mistakes ≤ turns)) as [H5|H5].
  - apply Hup, Hge. lia.
  - destruct (decide (turns < 2 * mistakes ∧ 1 < nBack r)) as [[H2 Hn]|Hno].
    + apply Hdown; [|done]. apply Hlt. lia.
    + apply Hkeep.
      * rewrite Hge. lia.
      * rewrite Hlt. intros [H2 Hn]. apply Hno. split; [lia | done].
Qed.

Lemma block_progression_in_counts_witness :
  nBack (live (checkProgression
    (sample_render false symbolic view false true 60 2 Attribute.color)
    (sample_world
       (sample_render false symbolic view false true 60 2 Attribute.color)
       [] None 20 11 20 11 false))) = 1.
Proof.
  destruct (block_progression_in_counts
              (sample_render false symbolic view false true 60 2 Attribute.color)
              (sample_world
                 (sample_render false symbolic view false true 60 2
                    Attribute.color)
                 [] None 20 11 20 11 false)
              eq_refl eq_refl) as (_ & _ & H).
  - cbn. unfold BLOCK_SIZE. lia.
  - exact H.
Defined.

(** ** Rule check boxes *)

(** X14. A call of [toggleRule] that the spatial guard lets through flips
    the rule it is given and no other: every other rule is active afterwards
    exactly when it was active in the render; the rule itself is active
    afterwards exactly when it was not active before or was the only active
    one; a list without repetitions stays without repetitions; and the list
    written to local storage is the new list of active rules. *)
Theorem toggleRule_flips_one_rule r rule w :
  is_spatial r
  && (bool_decide (rule = Attribute.shape) || bool_decide (rule = Attribute.size))
  = false →
  let new := activeRules (live (toggleRule r rule w)) in
  (∀ x, x ≠ rule → x ∈ new ↔ x ∈ activeRules r)
  ∧ (rule ∈ new ↔ rule ∉ activeRules r ∨ ∀ x, x ∈ activeRules r → x = rule)
  ∧ (NoDup (activeRules r) → NoDup new)
  ∧ rft_fluency_3d_rules (storage (toggleRule r rule w)) = Some new.
Proof.
  intros Hguard new.
  destruct (toggleRule_new_rules r rule w Hguard) as [Hnew _]. fold new in Hnew.
  assert (rft_fluency_3d_rules (storage (toggleRule r rule w)) = Some new) as Hst.
  { unfold new, toggleRule. by rewrite Hguard. }
  rewrite Hst. clear Hst. clearbody new. subst new. unfold includes.
  destruct (bool_decide (rule ∈ activeRules r)) eqn:Hin.
  - apply bool_decide_eq_true in Hin.
    destruct (decide (filter (λ x, x ≠ rule) (activeRules r) = [])) as [Hnil|Hnil].
    + assert (∀ x, x ∈ activeRules r → x = rule) as Hall.
      { intros x Hx. destruct (decide (x = rule)) as [|Hne]; [done|].
        assert (x ∈ filter (λ x, x ≠ rule) (activeRules r)) as Hf
          by (by apply list_elem_of_filter).
        rewrite Hnil in Hf. by apply elem_of_nil in Hf. }
      split_and!; [intros x _; reflexivity | | done | done].
      split; [by right | done].
    + split_and!; [| | | done].
      * intros x Hx. rewrite list_elem_of_filter. by split; [intros [_ ?]|].
      * rewrite list_elem_of_filter. split; [by intros [? _]|].
        intros [Hno | Hall]; [done|]. exfalso.
        destruct (filter (λ x, x ≠ rule) (activeRules r)) as [|y ys] eqn:Hfil;
          [done|].
        assert (y ∈ filter (λ x, x ≠ rule) (activeRules r)) as Hy
          by (rewrite Hfil; apply list_elem_of_here).
        apply list_elem_of_filter in Hy as [Hne Hy]. by apply Hne, Hall.
      * apply NoDup_filter.
  - apply bool_decide_eq_false in Hin. split_and!; [| | | done].
    + intros x Hx. rewrite elem_of_app, list_elem_of_singleton.
      by split; [intros [?|?]|left].
    + rewrite elem_of_app, list_elem_of_singleton. split; [by left | by right].
    + intros Hnd. apply NoDup_app. split_and!; [done | | apply NoDup_singleton].
      intros x Hx Hx'. apply list_elem_of_singleton in Hx'. by subst.
Qed.

Lemma toggleRule_flips_one_rule_witness :
  Attribute.position
    ∈ activeRules (live (toggleRule plain_render Attribute.position two_reds))
  ∧ Attribute.color
    ∈ activeRules (live (toggleRule plain_render Attribute.position two_reds)).
Proof.
  destruct (toggleRule_flips_one_rule plain_render Attribute.position two_reds
              eq_refl) as (Hother & Hrule & _).
  split.
  - apply Hrule. left. intros Hin. apply list_elem_of_singleton in Hin.
    discriminate Hin.
  - apply Hother; [discriminate|]. by apply list_elem_of_singleton.
Defined.

(** X15. The active rules survive a reload of the page: after a call of
    [toggleRule] that the spatial guard lets through, mounting the component
    afresh on the same local storage ([loadSettings] on the initial state)
    gives the list of active rules that the call left; reading the settings
    again in the same world changes nothing.  With no saved rules, or with a
    saved empty list, a fresh mount keeps the default [["color"]]. *)
Theorem rules_survive_reload r rule w :
  is_spatial r
  && (bool_decide (rule = Attribute.shape) || bool_decide (rule = Attribute.size))
  = false →
  let w' := toggleRule r rule w in
  activeRules (live (loadSettings (initialWorld (storage w'))))
  = activeRules (live w')
  ∧ activeRules (live (loadSettings w')) = activeRules (live w')
  ∧ (∀ st, rft_fluency_3d_rules st = None ∨ rft_fluency_3d_rules st = Some [] →
       activeRules (live (loadSettings (initialWorld st))) = [Attribute.color]).
Proof.
  intros Hguard w'.
  destruct (toggleRule_new_rules r rule w Hguard) as [_ Hne]. fold w' in Hne.
  assert (rft_fluency_3d_rules (storage w') = Some (activeRules (live w'))) as Hst.
  { unfold w', toggleRule. by rewrite Hguard. }
  assert (0 < length (activeRules (live w')))%nat as Hlen
    by (destruct (activeRules (live w')); [done | cbn; lia]).
  split_and!.
  - unfold loadSettings. cbn [storage initialWorld]. rewrite Hst.
    by rewrite decide_True.
  - unfold loadSettings. rewrite Hst. by rewrite decide_True.
  - intros st [Hnone | Hnil]; unfold loadSettings; cbn [storage initialWorld].
    + by rewrite Hnone.
    + rewrite Hnil. done.
Qed.

Lemma rules_survive_reload_witness :
  activeRules (live (loadSettings (initialWorld
    (storage (toggleRule plain_render Attribute.position two_reds)))))
  = [Attribute.color; Attribute.position].
Proof.
  destruct (rules_survive_reload plain_render Attribute.position two_reds
              eq_refl) as (H & _).
  exact H.
Defined.

(** ** Sides and keys *)

(** X16. While a stimulus with an n-back target waits for its response,
    exactly one of the two sides is right: the left one when the stimulus
    matches its target and the controls are not swapped, or does not match
    and they are swapped, the right one otherwise.  The right side earns at
    least 10 points, the other side costs 5.  On the keyboard the left
    arrow and D are the left side, the right arrow and J the right side,
    and every other key is ignored. *)
Theorem one_side_scores_the_other_costs_five r now w currentStim targetStim :
  isPlaying r = true →
  hasResponded (refs w) = false →
  0 ≤ nBack r < Z.of_nat (length (historyRef (refs w))) →
  historyRef (refs w) !! Z.to_nat (Z.of_nat (length (historyRef (refs w))) - 1)
    = Some currentStim →
  historyRef (refs w)
    !! Z.to_nat (Z.of_nat (length (historyRef (refs w))) - 1 - nBack r)
    = Some targetStim →
  let isMatch :=
    bool_decide
      (getTransformedValue r (perspectiveMapping (refs w)) currentStim (currentRule r)
       = getTransformedValue r (perspectiveMapping (refs w)) targetStim (currentRule r)) in
  let right_side :=
    if xorb isMatch (isSwapped r) then PhysicalSide.left else PhysicalSide.right in
  let wrong_side :=
    if xorb isMatch (isSwapped r) then PhysicalSide.right else PhysicalSide.left in
  score (live w) + 10 ≤ score (live (handlePhysicalSide r now right_side w))
  ∧ score (live (handlePhysicalSide r now wrong_side w)) = score (live w) - 5
  ∧ (∀ code,
       handleKeyDown r now code w
       = if bool_decide (code ∈ ["ArrowLeft"; "KeyD"])
         then handlePhysicalSide r now PhysicalSide.left w
         else if bool_decide (code ∈ ["ArrowRight"; "KeyJ"])
              then handlePhysicalSide r now PhysicalSide.right w
              else w).
Proof.
  intros Hplay Hresp Hn Hcur Htgt isMatch right_side wrong_side.
  pose proof (speedBonus_range (now - Stimulus.id currentStim)) as Hbonus.
  split_and!.
  - assert (∃ action, handlePhysicalSide r now right_side w
                      = handleInput r now action w
                      ∧ is_correct action isMatch = true) as (action & -> & Hok).
    { unfold handlePhysicalSide, right_side. rewrite Hplay. cbn [negb].
      destruct isMatch, (isSwapped r); cbn; eauto. }
    destruct (handleInput_scored r now action w currentStim targetStim
                Hplay Hresp Hn Hcur Htgt) as (_ & _ & _ & _ & _ & _ & _ & H).
    fold isMatch in H. rewrite Hok in H. destruct H as (-> & _). lia.
  - assert (∃ action, handlePhysicalSide r now wrong_side w
                      = handleInput r now action w
                      ∧ is_correct action isMatch = false) as (action & -> & Hok).
    { unfold handlePhysicalSide, wrong_side. rewrite Hplay. cbn [negb].
      destruct isMatch, (isSwapped r); cbn; eauto. }
    destruct (handleInput_scored r now action w currentStim targetStim
                Hplay Hresp Hn Hcur Htgt) as (_ & _ & _ & _ & _ & _ & _ & H).
    fold isMatch in H. rewrite Hok in H. by destruct H as (-> & _).
  - intros code. unfold handleKeyDown. rewrite Hplay. cbn [negb].
    destruct (decide (code = "ArrowLeft")) as [->|H1]; [done|].
    destruct (decide (code = "KeyD")) as [->|H2]; [done|].
    destruct (decide (code = "ArrowRight")) as [->|H3]; [done|].
    destruct (decide (code = "KeyJ")) as [->|H4]; [done|].
    rewrite (bool_decide_eq_false_2 _ H1), (bool_decide_eq_false_2 _ H2),
      (bool_decide_eq_false_2 _ H3), (bool_decide_eq_false_2 _ H4).
    cbn [orb].
    rewrite !bool_decide_eq_false_2; [done | |];
      intros Hin; rewrite !elem_of_cons, elem_of_nil in Hin; tauto.
Qed.

Lemma one_side_scores_the_other_costs_five_witness :
  score (live two_reds) + 10
    ≤ score (live (handlePhysicalSide plain_render 1500 PhysicalSide.left two_reds))
  ∧ score (live (handlePhysicalSide plain_render 1500 PhysicalSide.right two_reds))
    = score (live two_reds) - 5.
Proof.
  destruct (one_side_scores_the_other_costs_five plain_render 1500 two_reds
              (sample_stim red green PositionType.center 1000 me)
              (sample_stim red blue PositionType.center 0 me)
              eq_refl eq_refl) as (Hright & Hwrong & _).
  - cbn. lia.
  - reflexivity.
  - reflexivity.
  - split; [exact Hright | exact Hwrong].
Defined.

(** ** History chart *)



(** The group that a game joins, or founds. *)
Lemma add_to_group_keys key h : ∀ groups,
  (add_to_group key h groups).*1
  = (groups.*1 ++ if decide (key ∈ groups.*1) then [] else [key])%list.
Proof.
  induction groups as [|[k g] groups IH]; cbn.
  - rewrite decide_False; [done | apply not_elem_of_nil].
  - destruct (decide (k = key)) as [->|Hne]; cbn.
    + rewrite decide_True by apply list_elem_of_here. by rewrite app_nil_r.
    + rewrite IH. f_equal.
      destruct (decide (key ∈ groups.*1)) as [Hin|Hin].
      * rewrite decide_True; [done | by apply list_elem_of_further].
      * rewrite decide_False; [done|].
        rewrite elem_of_cons. intros [?|?]; by subst.
Qed.

Lemma add_to_group_elem key h : ∀ groups k g,
  NoDup groups.*1 →
  (k, g) ∈ add_to_group key h groups →
  (k ≠ key ∧ (k, g) ∈ groups)
  ∨ (k = key
     ∧ ((∃ g0, (k, g0) ∈ groups
              ∧ g = mkGroup (totalScore g0 + GameHistory.score h)
                      (totalNBack g0 + GameHistory.maxNBack h) (count g0 + 1))
        ∨ ((key ∉ groups.*1)
           ∧ g = mkGroup (0 + GameHistory.score h) (0 + GameHistory.maxNBack h)
                   (0 + 1)))).
Proof.
  induction groups as [|[k0 g0] groups IH]; intros k g Hnd Hin; cbn in Hin.
  - apply list_elem_of_singleton in Hin as [= -> ->]. right. split; [done|].
    right. split; [apply not_elem_of_nil | done].
  - apply NoDup_cons in Hnd as [Hk0 Hnd]. cbn in Hk0.
    destruct (decide (k0 = key)) as [->|Hne].
    + apply elem_of_cons in Hin as [[= -> ->] | Hin].
      * right. split; [done|]. left. eexists. split; [apply list_elem_of_here | done].
      * left. split; [|by apply list_elem_of_further].
        intros ->. apply Hk0. apply list_elem_of_fmap. by exists (key, g).
    + apply elem_of_cons in Hin as [[= -> ->] | Hin].
      * left. split; [done | apply list_elem_of_here].
      * destruct (IH k g Hnd Hin) as [[? ?] | [-> [(g1 & ? & ->) | [? ->]]]].
        -- left. split; [done | by apply list_elem_of_further].
        -- right. split; [done|]. left. exists g1.
           split; [by apply list_elem_of_further | done].
        -- right. split; [done|]. right. split; [|done].
           cbn. rewrite elem_of_cons. intros [?|?]; by subst.
Qed.

Lemma Zsum_app xs ys : Zsum (xs ++ ys) = Zsum xs + Zsum ys.
Proof. unfold Zsum. induction xs as [|x xs IH]; cbn; lia. Qed.

Lemma totals_snoc key_of_date now key hs h :
  totals key_of_date now key (hs ++ [h])
  = if decide (key_of_date (getTs now h) = key)
    then mkGroup (totalScore (totals key_of_date now key hs) + GameHistory.score h)
           (totalNBack (totals key_of_date now key hs) + GameHistory.maxNBack h)
           (count (totals key_of_date now key hs) + 1)
    else totals key_of_date now key hs.
Proof.
  unfold totals, games_with_key. rewrite filter_app.
  destruct (decide (key_of_date (getTs now h) = key)) as [Hk|Hk].
  - rewrite (filter_cons_True _ h []) by done. rewrite filter_nil.
    rewrite !fmap_app, !Zsum_app, length_app. cbn. f_equal; lia.
  - rewrite (filter_cons_False _ h []) by done. rewrite filter_nil.
    by rewrite app_nil_r.
Qed.

(** What [groups] holds when the [forEach] is over. *)
Lemma chartGroups_spec key_of_date now rawHistory :
  let groups := chartGroups key_of_date now rawHistory in
  NoDup groups.*1
  ∧ (∀ key, key ∈ groups.*1
            ↔ ∃ h, h ∈ rawHistory ∧ key_of_date (getTs now h) = key)
  ∧ (∀ key g, (key, g) ∈ groups → g = totals key_of_date now key rawHistory).
Proof.
  unfold chartGroups.
  induction rawHistory as [|h hs IH] using rev_ind.
  - cbn. split_and!.
    + apply NoDup_nil_2.
    + intros key. split.
      * intros Hin. by apply elem_of_nil in Hin.
      * intros (h & Hin & _). by apply elem_of_nil in Hin.
    + by intros key g ?%elem_of_nil.
  - cbn zeta in IH. destruct IH as (Hnd & Hkeys & Hval).
    rewrite fold_left_app. cbn [fold_left].
    set (groups := fold_left _ hs []) in *.
    set (key0 := key_of_date (getTs now h)).
    split_and!.
    + rewrite add_to_group_keys. destruct (decide (key0 ∈ groups.*1)).
      * by rewrite app_nil_r.
      * apply NoDup_app. split_and!; [done | | apply NoDup_singleton].
        intros x Hx ->%list_elem_of_singleton. done.
    + intros key. rewrite add_to_group_keys, elem_of_app, Hkeys. split.
      * intros [(h' & Hin & Hk) | Hin].
        -- exists h'. split; [|done]. apply elem_of_app. by left.
        -- destruct (decide (key0 ∈ groups.*1)) as [Hold|Hnew].
           ++ by apply elem_of_nil in Hin.
           ++ apply list_elem_of_singleton in Hin as ->. exists h.
              split; [|done]. apply elem_of_app. right. apply list_elem_of_here.
      * intros (h' & Hin & Hk). apply elem_of_app in Hin as [Hin | Hin].
        -- left. by exists h'.
        -- apply list_elem_of_singleton in Hin as ->. fold key0 in Hk. subst key.
           destruct (decide (key0 ∈ groups.*1)) as [Hold|Hnew].
           ++ left. by apply Hkeys.
           ++ right. apply list_elem_of_here.
    + intros key g Hin. rewrite totals_snoc. fold key0.
      apply add_to_group_elem in Hin
          as [[Hne Hin] | [-> [(g0 & Hin & ->) | [Hnew ->]]]]; [| | |done].
      * rewrite decide_False by done. by apply Hval.
      * rewrite decide_True by done. by rewrite <- (Hval _ _ Hin).
      * rewrite decide_True by done.
        assert (games_with_key key_of_date now key0 hs = []) as Hnone.
        { unfold games_with_key.
          destruct (filter _ hs) as [|h' hs'] eqn:Hfil; [done|]. exfalso.
          assert (h' ∈ filter (λ h, key_of_date (getTs now h) = key0) hs) as Hh
            by (rewrite Hfil; apply list_elem_of_here).
          apply list_elem_of_filter in Hh as [Hk Hh].
          apply Hnew, Hkeys. by exists h'. }
        unfold totals. by rewrite Hnone.
Qed.

Lemma Math_round_average (total n : Z) :
  0 < n →
  Math_round (inject_Z total / inject_Z n) = (2 * total + n) / (2 * n).
Proof.
  intros Hn. unfold Math_round, Qfloor, Qplus, Qdiv, Qmult, Qinv, inject_Z.
  destruct n as [|n|n]; try lia. cbn. f_equal; lia.
Qed.

(** X18. The week and month views of the chart.  The labels are the keys
    of the stored games, each once; the score line has one point per label;
    and the point of a label is the average score of the games with that
    label, rounded to the nearest integer with halves upwards: for games
    with scores adding up to [total], [n] of them, it is
    [(2 * total + n) / (2 * n)] rounded down.  A label always has at least
    one game, so that no average divides by zero. *)
Theorem aggregated_chart_averages chartView key_of_date now w labels scores levels :
  chartView ≠ session →
  chartData true chartView key_of_date now w = Some (labels, scores, levels) →
  let rawHistory := default [] (rft_fluency_3d_history (storage w)) in
  NoDup labels
  ∧ (∀ key, key ∈ labels
            ↔ ∃ h, h ∈ rawHistory ∧ key_of_date (getTs now h) = key)
  ∧ length scores = length labels
  ∧ (∀ i key, labels !! i = Some key →
       let games := games_with_key key_of_date now key rawHistory in
       let total := Zsum (GameHistory.score <$> games) in
       let n := Z.of_nat (length games) in
       0 < n ∧ scores !! i = Some ((2 * total + n) / (2 * n))).
Proof.
  intros Hview Hchart rawHistory.
  assert (labels = (chartGroups key_of_date now rawHistory).*1
          ∧ scores = (λ g, Math_round (inject_Z (totalScore g) / inject_Z (count g)))
                       <$> (chartGroups key_of_date now rawHistory).*2)
    as [-> ->].
  { unfold chartData in Hchart. cbn [negb] in Hchart.
    destruct chartView; [done | |]; by injection Hchart as <- <- _. }
  destruct (chartGroups_spec key_of_date now rawHistory) as (Hnd & Hkeys & Hval).
  cbv zeta in Hnd, Hkeys, Hval.
  split_and!; [done | done | by rewrite !length_fmap |].
  intros i key Hi games total n.
  apply list_lookup_fmap_Some in Hi as ([k g] & Hk & Hg). cbn in Hk. subst k.
  pose proof (Hval key g (list_elem_of_lookup_2 _ _ _ Hg)) as ->.
  assert (0 < n) as Hn.
  { assert (key ∈ (chartGroups key_of_date now rawHistory).*1) as Hin.
    { apply list_elem_of_fmap. exists (key, totals key_of_date now key rawHistory).
      split; [done | by eapply list_elem_of_lookup_2]. }
    apply Hkeys in Hin as (h & Hh & Hkey).
    assert (h ∈ games) as Hhg by (by apply list_elem_of_filter).
    subst n. destruct games; [by apply elem_of_nil in Hhg | cbn; lia]. }
  split; [done|].
  rewrite !list_lookup_fmap, Hg. cbn [fmap option_fmap option_map snd].
  f_equal. unfold totals. cbn [totalScore count]. fold games total n.
  by apply Math_round_average.
Qed.

Lemma aggregated_chart_averages_witness :
  chartData true week sample_key 5000 sample_stored
  = Some (["T100"; "T200"], [43; 15], None)
  ∧ NoDup ["T100"; "T200"]
  ∧ ("T100" ∈ ["T100"; "T200"]
     ↔ ∃ h, h ∈ sample_history ∧ sample_key (getTs 5000 h) = "T100").
Proof.
  assert (chartData true week sample_key 5000 sample_stored
          = Some (["T100"; "T200"], [43; 15], None)) as Hchart
    by (vm_compute; reflexivity).
  split; [exact Hchart|].
  destruct (aggregated_chart_averages week sample_key 5000 sample_stored
              ["T100"; "T200"] [43; 15] None) as (Hnd & Hkeys & _ & _).
  - discriminate.
  - exact Hchart.
  - split; [exact Hnd | exact (Hkeys "T100")].
Defined.

(** ** Feedback on a response *)

Lemma speedBonus_antitone rt1 rt2 : rt1 ≤ rt2 → speedBonus rt2 ≤ speedBonus rt1.
Proof.
  intros H. unfold speedBonus.
  assert ((2000 - rt2) / 150 ≤ (2000 - rt1) / 150)
    by (apply Z.div_le_mono; lia).
  lia.
Qed.

Lemma speedBonus_above_5 rt : 5 < speedBonus rt ↔ rt ≤ 1100.
Proof.
  unfold speedBonus. split.
  - intros H. assert (6 ≤ (2000 - rt) / 150) as H6 by lia.
    destruct (Z_le_gt_dec rt 1100) as [|Hgt]; [done|]. exfalso.
    assert ((2000 - rt) / 150 < 6) by (apply Z.div_lt_upper_bound; lia). lia.
  - intros H. assert (6 ≤ (2000 - rt) / 150)
      by (apply Z.div_le_lower_bound; lia).
    lia.
Qed.

(** X19. The message a response flashes.  A right response within 1100 ms
    of the stimulus shows [FAST! +b] with the speed bonus [b], a slower right
    one shows [Correct!], both in green; a wrong response shows [Missed!]
    when the player declared a non-match and [Incorrect!] when the player
    declared a match, both in red.  A quicker response never earns a smaller
    bonus than a slower one. *)
Theorem response_feedback r now action w currentStim targetStim :
  isPlaying r = true →
  hasResponded (refs w) = false →
  0 ≤ nBack r < Z.of_nat (length (historyRef (refs w))) →
  historyRef (refs w) !! Z.to_nat (Z.of_nat (length (historyRef (refs w))) - 1)
    = Some currentStim →
  historyRef (refs w)
    !! Z.to_nat (Z.of_nat (length (historyRef (refs w))) - 1 - nBack r)
    = Some targetStim →
  let isMatch :=
    bool_decide
      (getTransformedValue r (perspectiveMapping (refs w)) currentStim (currentRule r)
       = getTransformedValue r (perspectiveMapping (refs w)) targetStim (currentRule r)) in
  let reactionTime := now - Stimulus.id currentStim in
  let w' := handleInput r now action w in
  (feedbackMsg (live w'), feedbackColor (live w'))
  = (if is_correct action isMatch then
       (if decide (reactionTime ≤ 1100)
        then "FAST! +" +:+ pretty (speedBonus reactionTime) else "Correct!",
        "text-green-500")
     else
       (match action with non_match => "Missed!" | a_match => "Incorrect!" end,
        "text-red-500"))
  ∧ (∀ rt1 rt2, rt1 ≤ rt2 → speedBonus rt2 ≤ speedBonus rt1).
Proof.
  intros Hplay Hresp Hn Hcur Htgt isMatch reactionTime w'.
  split; [|apply speedBonus_antitone].
  subst w'. unfold handleInput.
  rewrite Hplay, Hresp.
  replace (_ <=? nBack r) with false by (symmetry; apply Z.leb_gt; lia).
  cbn [negb orb].
  cbn [set_hasResponded on_refs refs historyRef perspectiveMapping].
  rewrite Hcur.
  replace (0 <=? _) with true by (symmetry; apply Z.leb_le; lia).
  rewrite Htgt. fold isMatch. fold reactionTime.
  destruct (is_correct action isMatch); [|done].
  destruct (decide (reactionTime ≤ 1100)) as [Hfast|Hslow].
  - apply speedBonus_above_5, Z.ltb_lt in Hfast. by rewrite Hfast.
  - replace (5 <? speedBonus reactionTime) with false; [done|].
    symmetry. apply Z.ltb_ge.
    destruct (Z_le_gt_dec (speedBonus reactionTime) 5) as [|Hgt]; [done|].
    exfalso. apply Hslow, speedBonus_above_5. lia.
Qed.

Lemma response_feedback_witness :
  feedbackMsg (live (handleInput plain_render 1500 a_match two_reds))
  = "FAST! +10".
Proof.
  destruct (response_feedback plain_render 1500 a_match two_reds
              (sample_stim red green PositionType.center 1000 me)
              (sample_stim red blue PositionType.center 0 me)
              eq_refl eq_refl) as [H _].
  - cbn. lia.
  - reflexivity.
  - reflexivity.
  - exact (f_equal fst H).
Defined.

(** ** The level and the render *)

Lemma checkMissedTarget_level isReset r w :
  nBack (live (checkMissedTarget isReset r w)) = nBack (live w).
Proof.
  unfold checkMissedTarget. by destruct (negb isReset && _ && negb _).
Qed.

Lemma checkProgression_level r w :
  nBack (live (checkProgression r w)) = nBack (live w) + 1
  ∨ nBack (live (checkProgression r w)) = nBack (live w)
  ∨ (1 < nBack r ∧ nBack (live (checkProgression r w)) = nBack (live w) - 1).
Proof.
  unfold checkProgression.
  destruct (negb (autoProgress r) || _ || useTimer r); [by right; left|].
  destruct (Qle_bool 80 _); [by left|].
  destruct (Qltb _ 50) ; [|by right; left].
  destruct (1 <? nBack r) eqn:Hn; [|by right; left].
  apply Z.ltb_lt in Hn. by right; right.
Qed.

Lemma endGame_level timedOut r shortDate now w :
  nBack (live (endGame timedOut r shortDate now w)) = nBack (live w) + 1
  ∨ nBack (live (endGame timedOut r shortDate now w)) = nBack (live w)
  ∨ (1 < nBack r
     ∧ nBack (live (endGame timedOut r shortDate now w)) = nBack (live w) - 1).
Proof.
  unfold endGame.
  destruct (timedOut && negb _); [by right; left|].
  cbn [setIsPlaying set_turnTimerRef set_gameIntervalRef on_live on_refs refs
       totalTurns totalMistakes live].
  destruct (timedOut && autoProgress r && _).
  - destruct (Qle_bool 80 _); [destruct timedOut; by left|].
    destruct (1 <? nBack r) eqn:Hn; cbn [andb].
    + apply Z.ltb_lt in Hn. destruct (Qltb _ 50).
      * destruct timedOut; by right; right.
      * destruct timedOut; by right; left.
    + destruct timedOut; by right; left.
  - destruct timedOut; by right; left.
Qed.

(** X20. The level stays at 1 or above as long as no callback runs from a
    render with an outdated level.  From a world whose level is at least 1,
    every handler that is called from a render showing that same level
    leaves a level of at least 1: the block check, a whole turn, the end of a
    session, the timeout effect, a response, a stop.  The [-] button needs
    no such condition: it never goes below 1. *)
Theorem level_stays_positive_in_current_renders r w :
  nBack r = nBack (live w) →
  1 ≤ nBack (live w) →
  1 ≤ nBack (live (checkProgression r w))
  ∧ (∀ isReset now ds w' ds',
       nextTurn isReset r now w ds = Some (w', ds') → 1 ≤ nBack (live w'))
  ∧ (∀ timedOut shortDate now,
       1 ≤ nBack (live (endGame timedOut r shortDate now w)))
  ∧ (∀ shortDate now, 1 ≤ nBack (live (timeoutEffect r shortDate now w)))
  ∧ (∀ now action, 1 ≤ nBack (live (handleInput r now action w)))
  ∧ 1 ≤ nBack (live (stopGame w))
  ∧ 1 ≤ nBack (live (nBackPlus r w))
  ∧ (∀ r', 1 ≤ nBack (live (nBackMinus r' w))).
Proof.
  intros Hr Hw. split_and!.
  - destruct (checkProgression_level r w) as [-> | [-> | [? ->]]]; lia.
  - intros isReset now ds w' ds' Hturn.
    apply nextTurn_inv in Hturn as (stim & Hturn). cbv zeta in Hturn.
    destruct Hturn as (_ & _ & _ & _ & _ & _ & _ & _ & _ & _ & _ & _ & -> & _).
    pose proof (checkMissedTarget_level isReset r w) as Hm.
    destruct (checkProgression_level r (checkMissedTarget isReset r w))
      as [-> | [-> | [? ->]]]; lia.
  - intros timedOut shortDate now.
    destruct (endGame_level timedOut r shortDate now w) as [-> | [-> | [? ->]]]; lia.
  - intros shortDate now. unfold timeoutEffect.
    destruct (isPlaying r && useTimer r && _); [|done].
    destruct (gameIntervalRef (refs w)); [|done].
    destruct (endGame_level true r shortDate now w) as [-> | [-> | [? ->]]]; lia.
  - intros now action.
    destruct (handleInput_effect r now action w) as [-> | _]; [done|].
    unfold handleInput.
    destruct (negb (isPlaying r) || _ || _); [done|].
    cbn [set_hasResponded on_refs refs historyRef perspectiveMapping].
    destruct (historyRef (refs w) !! _); [|done].
    destruct (if 0 <=? _ then _ else _); [|done].
    destruct (is_correct _ _); [destruct (5 <? _)|]; done.
  - done.
  - unfold nBackPlus. destruct (autoProgress r); cbn; lia.
  - intros r'. unfold nBackMinus. destruct (autoProgress r'); cbn; lia.
Qed.

Lemma level_stays_positive_in_current_renders_witness :
  1 ≤ nBack (live (checkProgression
         (sample_render false symbolic view false true 60 1 Attribute.color)
         (sample_world
            (sample_render false symbolic view false true 60 1 Attribute.color)
            [] None 20 20 40 38 false))).
Proof.
  destruct (level_stays_positive_in_current_renders
              (sample_render false symbolic view false true 60 1 Attribute.color)
              (sample_world
                 (sample_render false symbolic view false true 60 1
                    Attribute.color)
                 [] None 20 20 40 38 false)
              eq_refl) as (H & _).
  - cbn. lia.
  - exact H.
Defined.

(** ** When the shuffle loop can end *)

Lemma has_fixed_point_true values : ∀ shuffled,
  has_fixed_point values shuffled = true →
  ∃ i v, values !! i = Some v ∧ shuffled !! i = Some v.
Proof.
  induction values as [|x values IH]; intros shuffled Hfp; [done|].
  destruct shuffled as [|s shuffled]; [done|]. cbn in Hfp.
  destruct (decide (x = s)) as [->|Hxs].
  - by exists 0%nat, s.
  - destruct (IH _ Hfp) as (i & v & ? & ?). by exists (S i), v.
Qed.

Lemma rotate_left_no_fixed_point values :
  NoDup values → (2 ≤ length values)%nat →
  has_fixed_point values (rotate_left values) = false.
Proof.
  intros Hnd Hlen.
  destruct (has_fixed_point values (rotate_left values)) eqn:Hfp; [|done].
  exfalso. apply has_fixed_point_true in Hfp as (i & v & Hi & Hr).
  pose proof (lookup_lt_Some _ _ _ Hi) as Hlt.
  unfold rotate_left in Hr.
  destruct (decide (S i < length values)%nat) as [Hin|Hout].
  - rewrite lookup_app_l in Hr by (rewrite length_drop; lia).
    rewrite lookup_drop in Hr.
    pose proof (NoDup_lookup _ _ _ _ Hnd Hi Hr). lia.
  - rewrite lookup_app_r in Hr by (rewrite length_drop; lia).
    rewrite length_drop in Hr.
    replace (i - (length values - 1))%nat with 0%nat in Hr by lia.
    rewrite lookup_take in Hr by lia.
    pose proof (NoDup_lookup _ _ _ _ Hnd Hi Hr). lia.
Qed.

(** X21. When the shuffle loop of [generateCyclicMapping] can end.  For an
    array of one value it never does: every rearrangement leaves the value in
    place, so no number of shuffles gives a table.  For two or more distinct
    values a shuffle that the loop accepts exists (moving the first value to
    the end is one), and the call returns at the first such shuffle. *)
Theorem shuffle_loop_needs_two_values values shuffles :
  sorts_permute shuffles →
  (length values = 1%nat → generateCyclicMapping values shuffles = None)
  ∧ (NoDup values → (2 ≤ length values)%nat →
     is_Some (generateCyclicMapping values (shuffles ++ [rotate_left]))).
Proof.
  intros Hperm. split.
  - intros Hlen. destruct values as [|v [|? ?]]; try done.
    unfold generateCyclicMapping.
    assert (shuffle_until_valid [v] shuffles = None) as ->; [|done].
    induction Hperm as [|f shuffles Hf Hperm IH]; [done|]. cbn.
    pose proof (Hf [v]) as Hfv. apply Permutation_singleton_r in Hfv.
    rewrite Hfv. cbn. by rewrite decide_True.
  - intros Hnd Hlen. apply generateCyclicMapping_runs.
    apply Exists_app. right. apply Exists_cons_hd.
    by apply rotate_left_no_fixed_point.
Qed.

Lemma shuffle_loop_needs_two_values_witness :
  generateCyclicMapping ["red"] sample_shuffles = None
  ∧ is_Some (generateCyclicMapping ["red"; "blue"; "green"]
               (sample_shuffles ++ [rotate_left])%list).
Proof.
  split.
  - apply (shuffle_loop_needs_two_values ["red"] sample_shuffles
             sample_shuffles_permute). reflexivity.
  - apply (shuffle_loop_needs_two_values ["red"; "blue"; "green"]
             sample_shuffles sample_shuffles_permute).
    + solve_NoDup.
    + cbn. lia.
Defined.

(** ** What a turn asks *)

(** X22. The question of a turn.  The rule a turn asks about is one of the
    active rules of the render that runs it, and the stimulus on display is
    the last entry of the history.  The controls are swapped only when the
    render has control swap enabled, and then exactly when the number drawn
    for it is below the double that the literal [0.35] denotes
    (3152519739159347 / 2^53): a draw equal to that double does not swap.
    With control swap off, left means match in every turn. *)
Theorem nextTurn_question isReset r now w ds w' ds' :
  nextTurn isReset r now w ds = Some (w', ds') →
  currentRule (live w') ∈ activeRules r
  ∧ currentStimulus (live w') = last (historyRef (refs w'))
  ∧ (controlSwapEnabled r = false → isSwapped (live w') = false)
  ∧ (controlSwapEnabled r = true →
     ∃ u ds1, ds = u :: ds1
              ∧ isSwapped (live w') = Qltb u double_0_35
              ∧ (u = double_0_35 → isSwapped (live w') = false)).
Proof.
  unfold nextTurn. cbv zeta. intros H.
  apply Rand_bind_Some in H as (swapped & ds1 & Hswap & H).
  apply Rand_bind_Some in H as (newRule & ds2 & Hrule & H).
  apply Rand_bind_Some in H as ([stim wg] & ds3 & Hgen & H).
  apply generateStimulus_inv in Hgen as (_ & _ & _ & _ & _ & ->).
  apply Rand_ret_Some in H as [<- _].
  apply random_element_In in Hrule.
  split_and!.
  - destruct (useTimer r && _ && _); [unfold startTimer|];
      cbn; try destruct (gameIntervalRef _); cbn; done.
  - destruct (useTimer r && _ && _); [unfold startTimer|];
      cbn; try destruct (gameIntervalRef _); cbn; by rewrite last_snoc.
  - intros Hoff. rewrite Hoff in Hswap. apply Rand_ret_Some in Hswap as [<- _].
    destruct (useTimer r && _ && _); [unfold startTimer|];
      cbn; try destruct (gameIntervalRef _); cbn; done.
  - intros Hon. rewrite Hon in Hswap.
    apply Rand_bind_Some in Hswap as (u & ds0 & Hu & Hswap).
    apply Rand_ret_Some in Hswap as [<- <-].
    unfold Math_random in Hu. destruct ds as [|u0 ds]; [done|].
    destruct (in_unit u0); [|done]. injection Hu as -> ->.
    exists u, ds0. split; [done|].
    match goal with
    | |- ?swapped = _ ∧ _ => assert (swapped = Qltb u double_0_35) as Hsw
    end.
    { destruct (useTimer r && _ && _); [unfold startTimer|];
        cbn; try destruct (gameIntervalRef _); cbn; done. }
    split; [exact Hsw|]. intros Hu. rewrite Hsw, Hu. reflexivity.
Qed.

Lemma nextTurn_question_witness :
  ∃ w' ds',
    nextTurn false swap_render 2000 two_reds (double_0_35 :: sample_draws)
    = Some (w', ds')
    ∧ currentRule (live w') ∈ activeRules swap_render
    ∧ isSwapped (live w') = false.
Proof.
  destruct (nextTurn false swap_render 2000 two_reds
              (double_0_35 :: sample_draws))
    as [[w' ds']|] eqn:Hturn; [|by vm_compute in Hturn].
  exists w', ds'. split; [reflexivity|].
  destruct (nextTurn_question false swap_render 2000 two_reds
              (double_0_35 :: sample_draws) w' ds' Hturn)
    as (Hrule & _ & _ & Hswap).
  split; [exact Hrule|].
  destruct (Hswap eq_refl) as (u & ds1 & Hds & _ & Hedge).
  apply Hedge. by injection Hds as <- _.
Defined.

(** ** The shape rule under the spatial perspective *)

Lemma generateStimulus_spatial_cube r now w ds stim w' ds' :
  is_spatial r = true → spatialType r ≠ cutout →
  generateStimulus r now w ds = Some ((stim, w'), ds') →
  Stimulus.shape stim = cube.
Proof.
  unfold generateStimulus. intros Hsp Hcut H.
  apply Rand_bind_Some in H as (color & ds1 & _ & H).
  apply Rand_bind_Some in H as (backColor0 & ds2 & _ & H).
  apply Rand_bind_Some in H as (backColor & ds3 & _ & H).
  apply Rand_bind_Some in H as (netColors0 & ds4 & _ & H).
  cbv zeta in H.
  apply Rand_bind_Some in H as (shape0 & ds5 & _ & H).
  apply Rand_bind_Some in H as (shape & ds6 & Hshape & H).
  apply Rand_bind_Some in H as (size & ds7 & _ & H).
  apply Rand_bind_Some in H as (position & ds8 & _ & H).
  apply Rand_bind_Some in H as (stroopText0 & ds9 & _ & H).
  apply Rand_bind_Some in H as (stroopText & ds10 & _ & H).
  apply Rand_bind_Some in H as (stroopInk & ds11 & _ & H).
  apply Rand_bind_Some in H as (u & ds12 & _ & H).
  apply Rand_ret_Some in H as [[= <- <-] _]. cbn.
  rewrite Hsp, (bool_decide_eq_false_2 _ Hcut) in Hshape. cbn in Hshape.
  by apply Rand_ret_Some in Hshape as [<- _].
Qed.

(** X23. Under the spatial perspective (rotation or folding variant) the
    rule [shape] cannot tell two stimuli apart: whatever the active rules,
    the distractor setting and the numbers drawn, any two generated stimuli
    are judged equal on shape, under both match strategies.  A turn that
    asks about shape is then always answered rightly by "match". *)
Theorem spatial_shape_rule_always_matches r pm now w ds s w1 ds1
    now' w' ds' s' w1' ds1' :
  is_spatial r = true →
  spatialType r ≠ cutout →
  generateStimulus r now w ds = Some ((s, w1), ds1) →
  generateStimulus r now' w' ds' = Some ((s', w1'), ds1') →
  getTransformedValue r pm s Attribute.shape
  = getTransformedValue r pm s' Attribute.shape
  ∧ is_correct a_match
      (bool_decide (getTransformedValue r pm s Attribute.shape
                    = getTransformedValue r pm s' Attribute.shape)) = true.
Proof.
  intros Hsp Hcut Hs Hs'.
  apply (generateStimulus_spatial_cube _ _ _ _ _ _ _ Hsp Hcut) in Hs.
  apply (generateStimulus_spatial_cube _ _ _ _ _ _ _ Hsp Hcut) in Hs'.
  assert (getTransformedValue r pm s Attribute.shape
          = getTransformedValue r pm s' Attribute.shape) as Heq.
  { unfold is_spatial in Hsp. apply andb_true_iff in Hsp as [Hmode Htype].
    apply bool_decide_eq_true in Htype.
    unfold getTransformedValue. rewrite Hmode, Htype. cbn.
    by rewrite Hs, Hs'. }
  split; [done|]. cbn. by apply bool_decide_eq_true.
Qed.

Lemma spatial_shape_rule_always_matches_witness :
  ∃ s w1 ds1 s' w1' ds1',
    generateStimulus
      (sample_render true spatial view false false 60 1 Attribute.shape)
      1000 two_reds sample_draws
    = Some ((s, w1), ds1)
    ∧ generateStimulus
        (sample_render true spatial view false false 60 1 Attribute.shape)
        4500 two_reds afk_draws
      = Some ((s', w1'), ds1')
    ∧ getTransformedValue
        (sample_render true spatial view false false 60 1 Attribute.shape) ∅
        s Attribute.shape
      = getTransformedValue
          (sample_render true spatial view false false 60 1 Attribute.shape) ∅
          s' Attribute.shape.
Proof.
  destruct (generateStimulus
              (sample_render true spatial view false false 60 1 Attribute.shape)
              1000 two_reds sample_draws) as [[[s w1] ds1]|] eqn:Hgen;
    [|by vm_compute in Hgen].
  destruct (generateStimulus
              (sample_render true spatial view false false 60 1 Attribute.shape)
              4500 two_reds afk_draws) as [[[s' w1'] ds1']|] eqn:Hgen';
    [|by vm_compute in Hgen'].
  exists s, w1, ds1, s', w1', ds1'. split; [reflexivity|]. split; [reflexivity|].
  apply (spatial_shape_rule_always_matches
           (sample_render true spatial view false false 60 1 Attribute.shape) ∅
           1000 two_reds sample_draws s w1 ds1
           4500 two_reds afk_draws s' w1' ds1');
    [reflexivity | discriminate | exact Hgen | exact Hgen'].
Defined.
